(** * CoreAudio receiver of scream: the source ring buffer

    A shallow embedding of [Receivers/unix/coreaudio.c]: the network side
    ([coreaudio_output_send]) copies PCM chunks into [ca_data.source_buffer],
    the AudioQueue callback ([audio_queue_output_callback]) copies them out
    again into the device block and pads the block with silence.

    [unsigned int] values are integers taken modulo [2^32]; bytes are
    integers; a [memcpy] or [memset] that leaves its arrays is a [Fault]. *)

From Stdlib Require Import ZArith List Lia Bool.
Import ListNotations.
Local Open Scope Z_scope.

(** ** Results of running C code *)

Inductive result (A : Type) : Type :=
| Done (a : A)
| Fault
| OutOfFuel.

Arguments Done {A} a.
Arguments Fault {A}.
Arguments OutOfFuel {A}.

Definition bind {A B : Type} (r : result A) (k : A -> result B) : result B :=
  match r with
  | Done a => k a
  | Fault => Fault
  | OutOfFuel => OutOfFuel
  end.

Notation "x <- c ;; k" := (bind c (fun x => k))
  (at level 61, c at next level, right associativity).
Notation "' p <- c ;; k" := (bind c (fun x => let 'p := x in k))
  (at level 61, p pattern, c at next level, right associativity).

(** ** Machine arithmetic and memory *)

Definition uint (x : Z) : Z := x mod 2 ^ 32.
Definition uadd (a b : Z) : Z := uint (a + b).
Definition usub (a b : Z) : Z := uint (a - b).

Definition len {A : Type} (l : list A) : Z := Z.of_nat (length l).

(** [memcpy (dst + doff) (src + soff) n] *)
Definition memcpy (dst : list Z) (doff : Z) (src : list Z) (soff n : Z)
  : result (list Z) :=
  if (0 <=? doff) && (0 <=? soff) && (0 <=? n)
     && (doff + n <=? len dst) && (soff + n <=? len src)
  then Done (firstn (Z.to_nat doff) dst
             ++ firstn (Z.to_nat n) (skipn (Z.to_nat soff) src)
             ++ skipn (Z.to_nat (doff + n)) dst)
  else Fault.

(** [memset (dst + doff) v n] *)
Definition memset (dst : list Z) (doff v n : Z) : result (list Z) :=
  if (0 <=? doff) && (0 <=? n) && (doff + n <=? len dst)
  then Done (firstn (Z.to_nat doff) dst
             ++ repeat v (Z.to_nat n)
             ++ skipn (Z.to_nat (doff + n)) dst)
  else Fault.

(** ** Data *)

Definition AQ_BUF_COUNT : nat := 2.
Definition AQ_BUF_SIZE : Z := 8820.

(** The ring buffer part of [struct coreaudio_output_data]; the format and
    the queue handles belong to the device layer. *)
Record coreaudio_output_data : Type := {
  source_buffer : list Z;
  source_buffer_start : Z;
  source_buffer_end : Z
}.

(** The fields of an [AudioQueueBuffer] the callback touches. *)
Record AudioQueueBuffer : Type := {
  mAudioDataBytesCapacity : Z;
  mAudioData : list Z;
  mAudioDataByteSize : Z
}.

(** Modelled from the spec: [receiver_data_t] is declared in a header that is
    not part of the sources; the producer interface delivers a contiguous
    byte region and its length, read here as a 32-bit size. *)
Record receiver_data_t : Type := {
  audio : list Z;
  audio_size : Z
}.

Section RingBuffer.

(** [SRC_BUF_SIZE]: 35280 in the source, a parameter here. *)
Variable SRC_BUF_SIZE : Z.

(** The occupancy the diagnostics print ([data_in_buffer]). *)
Definition data_in_buffer (ca : coreaudio_output_data) : Z :=
  let d := uint (SRC_BUF_SIZE + source_buffer_end ca - source_buffer_start ca) in
  if d >=? SRC_BUF_SIZE then usub d SRC_BUF_SIZE else d.

(** ** The consumer: [audio_queue_output_callback] *)

Definition audio_queue_output_callback
  (ca : coreaudio_output_data) (buffer : AudioQueueBuffer)
  : result (coreaudio_output_data * AudioQueueBuffer) :=
  let copied_size := 0 in
  let wanted_size := mAudioDataBytesCapacity buffer in
  (* Part 1 - current position to the end of the buffer *)
  let buffer_end :=
    if source_buffer_start ca <? source_buffer_end ca
    then source_buffer_end ca else SRC_BUF_SIZE in
  let available_size := usub buffer_end (source_buffer_start ca) in
  let copy_size :=
    if available_size >? wanted_size then wanted_size else available_size in
  data1 <- memcpy (mAudioData buffer) copied_size
                  (source_buffer ca) (source_buffer_start ca) copy_size ;;
  let start1 := uadd (source_buffer_start ca) copy_size in
  let wanted1 := usub wanted_size copy_size in
  let copied1 := uadd copied_size copy_size in
  (* at the end of the ring buffer, reset the read position *)
  let start2 := if start1 =? SRC_BUF_SIZE then 0 else start1 in
  let end2 :=
    if (start1 =? SRC_BUF_SIZE) && (source_buffer_end ca =? SRC_BUF_SIZE)
    then 0 else source_buffer_end ca in
  (* Part 2 - copy from the beginning of the buffer *)
  '(data2, start3, wanted2, copied2) <-
    (if (wanted1 >? 0) && (start2 <? end2) then
       let available_size := usub end2 start2 in
       let copy_size :=
         if available_size >? wanted1 then wanted1 else available_size in
       d <- memcpy data1 copied1 (source_buffer ca) start2 copy_size ;;
       Done (d, uadd start2 copy_size, usub wanted1 copy_size,
             uadd copied1 copy_size)
     else Done (data1, start2, wanted1, copied1)) ;;
  (* fill the gap with silence *)
  data3 <- (if wanted2 >? 0 then memset data2 copied2 0 wanted2
            else Done data2) ;;
  Done ({| source_buffer := source_buffer ca;
           source_buffer_start := start3;
           source_buffer_end := end2 |},
        {| mAudioDataBytesCapacity := mAudioDataBytesCapacity buffer;
           mAudioData := data3;
           mAudioDataByteSize := mAudioDataBytesCapacity buffer |}).

(** ** The producer: [coreaudio_output_send] *)

(** The [while] loop. [fuel] bounds the number of iterations; [segs] logs the
    [copy_size] of every iteration, oldest first. *)
Fixpoint send_loop (fuel : nat) (ca : coreaudio_output_data)
  (data : receiver_data_t) (copied_size : Z) (segs : list Z)
  : result (coreaudio_output_data * list Z) :=
  if usub (audio_size data) copied_size >? 0 then
    match fuel with
    | O => OutOfFuel
    | S fuel' =>
        let end1 :=
          if source_buffer_end ca =? SRC_BUF_SIZE
          then 0 else source_buffer_end ca in
        let left_size := usub (audio_size data) copied_size in
        let buffer_available := usub SRC_BUF_SIZE end1 in
        let copy_size :=
          if left_size <? buffer_available
          then left_size else buffer_available in
        sb <- memcpy (source_buffer ca) end1 (audio data) copied_size
                     copy_size ;;
        send_loop fuel'
          {| source_buffer := sb;
             source_buffer_start := source_buffer_start ca;
             source_buffer_end := uadd end1 copy_size |}
          data (uadd copied_size copy_size) (segs ++ [copy_size])
    end
  else Done (ca, segs).

Definition coreaudio_output_send (fuel : nat) (ca : coreaudio_output_data)
  (data : receiver_data_t) : result (coreaudio_output_data * Z) :=
  '(ca', _) <- send_loop fuel ca data 0 [] ;;
  Done (ca', 0).

(** ** Initialisation: [memset (&ca_data, 0, sizeof ca_data)] and the
    pre-fill of the queue, one callback per allocated block. *)

Definition ca_data_zero : coreaudio_output_data :=
  {| source_buffer := repeat 0 (Z.to_nat SRC_BUF_SIZE);
     source_buffer_start := 0;
     source_buffer_end := 0 |}.

(** What [AudioQueueAllocateBuffer] hands out: a block of [size] bytes whose
    content [junk] is whatever the allocator left there. *)
Definition allocate_buffer (size : Z) (junk : list Z) : AudioQueueBuffer :=
  {| mAudioDataBytesCapacity := size;
     mAudioData := junk;
     mAudioDataByteSize := 0 |}.

Fixpoint prefill (bufs : list AudioQueueBuffer) (ca : coreaudio_output_data)
  : result (coreaudio_output_data * list AudioQueueBuffer) :=
  match bufs with
  | [] => Done (ca, [])
  | b :: rest =>
      '(ca1, b1) <- audio_queue_output_callback ca b ;;
      '(ca2, out) <- prefill rest ca1 ;;
      Done (ca2, b1 :: out)
  end.

Definition coreaudio_output_init (bufs : list AudioQueueBuffer)
  : result (coreaudio_output_data * list AudioQueueBuffer) :=
  prefill bufs ca_data_zero.

(** ** Drivers used to state the properties *)

(** One ingest of the byte sequence [chunk]. *)
Definition chunk_of (bytes : list Z) : receiver_data_t :=
  {| audio := bytes; audio_size := len bytes |}.

Definition ingest (ca : coreaudio_output_data) (bytes : list Z)
  : result coreaudio_output_data :=
  '(ca', _) <- coreaudio_output_send (S (length bytes)) ca (chunk_of bytes) ;;
  Done ca'.

(** One feed of a block of [B] bytes whose previous content is [junk];
    returns the played bytes. *)
Definition feed (B : Z) (junk : list Z) (ca : coreaudio_output_data)
  : result (coreaudio_output_data * list Z) :=
  '(ca', b) <- audio_queue_output_callback ca (allocate_buffer B junk) ;;
  Done (ca', firstn (Z.to_nat (mAudioDataByteSize b)) (mAudioData b)).

(** [k] consecutive feeds; the blocks, oldest first. *)
Fixpoint feeds (k : nat) (B : Z) (junk : list Z) (ca : coreaudio_output_data)
  : result (coreaudio_output_data * list (list Z)) :=
  match k with
  | O => Done (ca, [])
  | S k' =>
      '(ca1, blk) <- feed B junk ca ;;
      '(ca2, blks) <- feeds k' B junk ca1 ;;
      Done (ca2, blk :: blks)
  end.


(** ** Vocabulary of the properties *)

(** Byte [i] of an array. *)
Definition get (s : list Z) (i : Z) : Z := nth (Z.to_nat i) s 0.

(** The [n] bytes of [s] from index [p] on, wrapping at [SRC_BUF_SIZE]. *)
Definition cyc_read (s : list Z) (p n : Z) : list Z :=
  map (fun j => get s ((p + Z.of_nat j) mod SRC_BUF_SIZE))
      (seq 0 (Z.to_nat n)).

(** The write position the producer really uses: the wrap of
    [source_buffer_end] is postponed to the next write. *)
Definition wrapped (e : Z) : Z := if e =? SRC_BUF_SIZE then 0 else e.

(** The cursors the two operations maintain. *)
Definition ring_inv (ca : coreaudio_output_data) : Prop :=
  0 < SRC_BUF_SIZE < 2 ^ 32
  /\ len (source_buffer ca) = SRC_BUF_SIZE
  /\ 0 <= source_buffer_start ca < SRC_BUF_SIZE
  /\ 0 <= source_buffer_end ca <= SRC_BUF_SIZE.

(** The number of bytes the callback finds between the cursors. *)
Definition readable (ca : coreaudio_output_data) : Z :=
  if source_buffer_start ca <? source_buffer_end ca
  then source_buffer_end ca - source_buffer_start ca
  else SRC_BUF_SIZE - source_buffer_start ca + source_buffer_end ca.

(** [s'] is [s] after the bytes [chunk] were stored from index [p] on,
    wrapping at [SRC_BUF_SIZE]: the last [SRC_BUF_SIZE] bytes of the chunk are
    in place, every index the chunk did not reach is as before. *)
Definition written (s : list Z) (p : Z) (chunk s' : list Z) : Prop :=
  length s' = length s
  /\ (forall j, 0 <= j < len chunk -> len chunk - j <= SRC_BUF_SIZE ->
       get s' ((p + j) mod SRC_BUF_SIZE) = get chunk j)
  /\ (forall i, 0 <= i < SRC_BUF_SIZE ->
       (forall j, 0 <= j < len chunk -> (p + j) mod SRC_BUF_SIZE <> i) ->
       get s' i = get s i).

(** The cursors after one callback on a block of [B] bytes, and the block. *)
Definition fed (B : Z) (ca : coreaudio_output_data) : coreaudio_output_data :=
  let m := Z.min B (readable ca) in
  {| source_buffer := source_buffer ca;
     source_buffer_start :=
       if source_buffer_start ca + m <? SRC_BUF_SIZE
       then source_buffer_start ca + m
       else source_buffer_start ca + m - SRC_BUF_SIZE;
     source_buffer_end :=
       if (source_buffer_end ca =? SRC_BUF_SIZE)
          && (SRC_BUF_SIZE - source_buffer_start ca <=? B)
       then 0 else source_buffer_end ca |}.

Definition played (B : Z) (ca : coreaudio_output_data) : list Z :=
  let m := Z.min B (readable ca) in
  cyc_read (source_buffer ca) (source_buffer_start ca) m
  ++ repeat 0 (Z.to_nat (B - m)).

(** Several ingests in a row. *)
Fixpoint ingests (ca : coreaudio_output_data) (chunks : list (list Z))
  : result coreaudio_output_data :=
  match chunks with
  | [] => Done ca
  | c :: rest => ca1 <- ingest ca c ;; ingests ca1 rest
  end.

End RingBuffer.

Definition sum_sizes (l : list Z) : Z := fold_right Z.add 0 l.

(** ** Concrete rings and the properties as the specification words them *)

Definition bytes_1_8 : list Z := [1; 2; 3; 4; 5; 6; 7; 8].
Definition bytes_9_28 : list Z :=
  [9; 10; 11; 12; 13; 14; 15; 16; 17; 18; 19; 20;
   21; 22; 23; 24; 25; 26; 27; 28].
Definition bytes_1_16 : list Z :=
  [1; 2; 3; 4; 5; 6; 7; 8; 9; 10; 11; 12; 13; 14; 15; 16].
Definition bytes_1_20 : list Z := bytes_1_16 ++ [17; 18; 19; 20].
Definition bytes_1_6 : list Z := [1; 2; 3; 4; 5; 6].

(** The scenario of the testable properties: 8 bytes in, three feeds,
    20 bytes in, four feeds. *)
Definition scenario (C B : Z) (junk : list Z)
  : result (list (list Z) * list (list Z)) :=
  ca1 <- ingest C (ca_data_zero C) bytes_1_8 ;;
  '(ca2, first3) <- feeds C 3 B junk ca1 ;;
  ca3 <- ingest C ca2 bytes_9_28 ;;
  '(_, next4) <- feeds C 4 B junk ca3 ;;
  Done (first3, next4).

(** The occupancy as the specification derives it. *)
Definition spec_occupancy (C : Z) (ca : coreaudio_output_data) : Z :=
  (C + source_buffer_end ca - source_buffer_start ca) mod C.

(** Underrun fill as the specification words it: below [B] bytes of
    occupancy, the block is the occupancy's worth of bytes from the read
    cursor on, then zeros. *)
Definition underrun_fill_claim (C B : Z) (junk : list Z)
  (ca : coreaudio_output_data) : Prop :=
  spec_occupancy C ca < B ->
  exists ca',
    feed C B junk ca
    = Done (ca',
            cyc_read C (source_buffer ca) (source_buffer_start ca)
                     (spec_occupancy C ca)
            ++ repeat 0 (Z.to_nat (B - spec_occupancy C ca))).

(** A ring of 16 bytes holding 1..16, write cursor left at the end. *)
Definition ring_full : coreaudio_output_data :=
  {| source_buffer := bytes_1_16;
     source_buffer_start := 0;
     source_buffer_end := 16 |}.

(** The same ring after four feeds of 4 bytes: both cursors back at 0. *)
Definition ring_drained : coreaudio_output_data :=
  {| source_buffer := bytes_1_16;
     source_buffer_start := 0;
     source_buffer_end := 0 |}.

Definition junk4 : list Z := [85; 85; 85; 85].

(** Both cursors strictly below the capacity, as the data model words it. *)
Definition cursors_below (C : Z) (ca : coreaudio_output_data) : Prop :=
  0 <= source_buffer_start ca < C /\ 0 <= source_buffer_end ca < C.

(** The overflow policy as the specification words it: after the ingest,
    the [k] feeds that follow return first the last [min n C] bytes of the
    chunk, in order. *)
Definition recovers_latest (C B : Z) (junk : list Z) (k : nat)
  (ca : coreaudio_output_data) (chunk : list Z) : Prop :=
  let m := Z.min (len chunk) C in
  exists ca1 ca2 blks,
    ingest C ca chunk = Done ca1
    /\ feeds C k B junk ca1 = Done (ca2, blks)
    /\ firstn (Z.to_nat m) (concat blks)
       = skipn (Z.to_nat (len chunk - m)) chunk.

(** ** Sequences of operations and the queue they are compared with *)

(** One call of the producer or of the consumer. *)
Inductive op : Type :=
| Send (bytes : list Z)
| Play (B : Z) (junk : list Z).

(** The calls in order on the ring; the blocks played, oldest first. *)
Fixpoint run (C : Z) (ca : coreaudio_output_data) (ops : list op)
  : result (coreaudio_output_data * list (list Z)) :=
  match ops with
  | [] => Done (ca, [])
  | Send bytes :: rest => ca1 <- ingest C ca bytes ;; run C ca1 rest
  | Play B junk :: rest =>
      '(ca1, blk) <- feed C B junk ca ;;
      '(ca2, blks) <- run C ca1 rest ;;
      Done (ca2, blk :: blks)
  end.

Definition well_formed (o : op) : Prop :=
  match o with
  | Send bytes => len bytes < 2 ^ 32
  | Play B junk => 0 <= B < 2 ^ 32 /\ len junk = B
  end.

(** A block of [B] bytes taken from the front of a queue of bytes, padded
    with silence. *)
Definition take_block (B : Z) (q : list Z) : list Z :=
  firstn (Z.to_nat B) q ++ repeat 0 (Z.to_nat B - length q).

(** The same calls on an unbounded queue of bytes. *)
Fixpoint fifo (q : list Z) (ops : list op) : list (list Z) :=
  match ops with
  | [] => []
  | Send bytes :: rest => fifo (q ++ bytes) rest
  | Play B _ :: rest => take_block B q :: fifo (skipn (Z.to_nat B) q) rest
  end.

(** The calls never put more than [C] bytes in the queue and never play from
    the empty queue. *)
Fixpoint fits (C : Z) (q : list Z) (ops : list op) : Prop :=
  match ops with
  | [] => True
  | Send bytes :: rest =>
      len q + len bytes <= C /\ fits C (q ++ bytes) rest
  | Play B junk :: rest =>
      q <> [] /\ 0 <= B < 2 ^ 32 /\ len junk = B
      /\ fits C (skipn (Z.to_nat B) q) rest
  end.

(** The queue the calls leave behind. *)
Fixpoint queue_after (q : list Z) (ops : list op) : list Z :=
  match ops with
  | [] => q
  | Send bytes :: rest => queue_after (q ++ bytes) rest
  | Play B _ :: rest => queue_after (skipn (Z.to_nat B) q) rest
  end.

(** The sizes of the blocks the calls ask for. *)
Fixpoint requested (ops : list op) : list Z :=
  match ops with
  | [] => []
  | Send _ :: rest => requested rest
  | Play B _ :: rest => B :: requested rest
  end.

(** The ring holds the queue [q]: its bytes lie from the read cursor on,
    around the ring, up to the write cursor. *)
Definition holds (C : Z) (ca : coreaudio_output_data) (q : list Z) : Prop :=
  ring_inv C ca
  /\ len q <= C
  /\ (if len q =? 0
      then source_buffer_start ca = source_buffer_end ca
      else readable C ca = len q)
  /\ cyc_read C (source_buffer ca) (source_buffer_start ca) (len q) = q.

(** ** [coreaudio_output_init] with the results of the AudioQueue calls *)

(** What the device layer answers: the status of [AudioQueueNewOutput], for
    every index the status of [AudioQueueAllocateBuffer] and the content of
    the block it allocated, and the status of [AudioQueueStart]. *)
Record audio_queue_calls : Type := {
  new_output_status : Z;
  allocate_status : nat -> Z;
  allocate_content : nat -> list Z;
  start_status : Z
}.

(** A block of [size] bytes of silence, marked valid in full. *)
Definition silent (size : Z) (b : AudioQueueBuffer) : Prop :=
  mAudioDataBytesCapacity b = size
  /\ mAudioData b = repeat 0 (Z.to_nat size)
  /\ mAudioDataByteSize b = size.

(** The [for] loop over the blocks, from index [i] on, [count] blocks to go:
    the blocks enqueued so far, and whether every allocation succeeded. *)
Fixpoint init_buffers (C size : Z) (calls : audio_queue_calls)
  (count i : nat) (ca : coreaudio_output_data) (enq : list AudioQueueBuffer)
  : result (coreaudio_output_data * list AudioQueueBuffer * bool) :=
  match count with
  | O => Done (ca, enq, true)
  | S count' =>
      if negb (allocate_status calls i =? 0) then Done (ca, enq, false)
      else
        '(ca1, b1) <- audio_queue_output_callback C ca
                        (allocate_buffer size (allocate_content calls i)) ;;
        init_buffers C size calls count' (S i) ca1 (enq ++ [b1])
  end.

(** The whole function: the ring, the blocks handed to the queue, and the
    value returned. *)
Definition coreaudio_output_init_status (C size : Z) (count : nat)
  (calls : audio_queue_calls)
  : result (coreaudio_output_data * list AudioQueueBuffer * Z) :=
  let ca := ca_data_zero C in
  if negb (new_output_status calls =? 0) then Done (ca, [], 1)
  else
    '(ca1, enq, allocated) <- init_buffers C size calls count O ca [] ;;
    if negb allocated then Done (ca1, enq, 1)
    else if negb (start_status calls =? 0) then Done (ca1, enq, 1)
    else Done (ca1, enq, 0).

(** ** Arrays *)

Lemma len_app {A : Type} (l1 l2 : list A) : len (l1 ++ l2) = len l1 + len l2.
Proof. unfold len. rewrite length_app. lia. Qed.

Lemma len_nonneg {A : Type} (l : list A) : 0 <= len l.
Proof. unfold len. lia. Qed.

Lemma len_repeat (v n : Z) : 0 <= n -> len (repeat v (Z.to_nat n)) = n.
Proof. intros. unfold len. rewrite repeat_length. lia. Qed.

Lemma len_slice (s : list Z) (p n : Z) :
  0 <= p -> 0 <= n -> p + n <= len s ->
  len (firstn (Z.to_nat n) (skipn (Z.to_nat p) s)) = n.
Proof.
  unfold len. intros. rewrite length_firstn, length_skipn. lia.
Qed.

(** Storing [S] right behind an already written prefix [A] of a block. *)
Lemma overlay (A S d : list Z) :
  firstn (length A) (A ++ skipn (length A) d)
    ++ S ++ skipn (length A + length S) (A ++ skipn (length A) d)
  = (A ++ S) ++ skipn (length (A ++ S)) d.
Proof.
  rewrite firstn_app, firstn_all, Nat.sub_diag, firstn_O, app_nil_r.
  rewrite skipn_app, skipn_all2 by lia.
  replace (length A + length S - length A)%nat with (length S) by lia.
  rewrite skipn_skipn, length_app, <- app_assoc. simpl.
  do 3 f_equal. lia.
Qed.

Lemma len_nil : len (@nil Z) = 0.
Proof. reflexivity. Qed.

Ltac len_solve :=
  rewrite ?len_app, ?len_nil, ?len_slice, ?len_repeat by lia; lia.

Lemma memcpy_overlay (A d src : list Z) (o soff n : Z) :
  o = len A ->
  0 <= soff -> 0 <= n -> soff + n <= len src -> len A + n <= len d ->
  memcpy (A ++ skipn (length A) d) o src soff n
  = Done ((A ++ firstn (Z.to_nat n) (skipn (Z.to_nat soff) src))
          ++ skipn (length (A ++ firstn (Z.to_nat n) (skipn (Z.to_nat soff) src))) d).
Proof.
  intros -> Hs Hn Hsrc Hd. unfold memcpy.
  assert (Hl : len (A ++ skipn (length A) d) = len d).
  { unfold len in *. rewrite length_app, length_skipn. lia. }
  rewrite Hl.
  replace ((0 <=? len A) && (0 <=? soff) && (0 <=? n)
           && (len A + n <=? len d) && (soff + n <=? len src)) with true.
  2:{ symmetry. pose proof (len_nonneg A).
      repeat (apply andb_true_intro; split); apply Z.leb_le; lia. }
  f_equal.
  pose proof (len_slice src soff n Hs Hn Hsrc) as Hsl. unfold len in Hsl.
  rewrite <- overlay. unfold len.
  rewrite Nat2Z.id.
  replace (Z.to_nat (Z.of_nat (length A) + n))
    with (length A + length (firstn (Z.to_nat n) (skipn (Z.to_nat soff) src)))%nat
    by lia.
  reflexivity.
Qed.

Lemma memset_overlay (A d : list Z) (o v n : Z) :
  o = len A ->
  0 <= n -> len A + n <= len d ->
  memset (A ++ skipn (length A) d) o v n
  = Done ((A ++ repeat v (Z.to_nat n))
          ++ skipn (length (A ++ repeat v (Z.to_nat n))) d).
Proof.
  intros -> Hn Hd. unfold memset.
  assert (Hl : len (A ++ skipn (length A) d) = len d).
  { unfold len in *. rewrite length_app, length_skipn. lia. }
  rewrite Hl.
  replace ((0 <=? len A) && (0 <=? n) && (len A + n <=? len d)) with true.
  2:{ symmetry. pose proof (len_nonneg A).
      repeat (apply andb_true_intro; split); apply Z.leb_le; lia. }
  f_equal. rewrite <- overlay. unfold len. rewrite Nat2Z.id.
  replace (Z.to_nat (Z.of_nat (length A) + n))
    with (length A + length (repeat v (Z.to_nat n)))%nat
    by (rewrite repeat_length; lia).
  reflexivity.
Qed.

(** A block that was written from its first to its last byte. *)
Lemma overlay_full (A d : list Z) :
  len A = len d -> A ++ skipn (length A) d = A.
Proof.
  unfold len. intros H. rewrite skipn_all2 by lia. apply app_nil_r.
Qed.

(** ** Machine arithmetic *)

Lemma uint_small (x : Z) : 0 <= x < 2 ^ 32 -> uint x = x.
Proof. intros. unfold uint. apply Z.mod_small. assumption. Qed.

(** ** Reading around the ring *)

Section RingFacts.

Variable C : Z.

Lemma cyc_read_length (s : list Z) (p n : Z) :
  length (cyc_read C s p n) = Z.to_nat n.
Proof. unfold cyc_read. rewrite length_map, length_seq. reflexivity. Qed.

Lemma cyc_read_nth (s : list Z) (p n : Z) (i : nat) :
  (i < Z.to_nat n)%nat ->
  nth i (cyc_read C s p n) 0 = get s ((p + Z.of_nat i) mod C).
Proof.
  intros Hi. unfold cyc_read.
  set (f := fun j : nat => get s ((p + Z.of_nat j) mod C)).
  rewrite nth_indep with (d' := f O)
    by (rewrite length_map, length_seq; exact Hi).
  rewrite map_nth, seq_nth by exact Hi. reflexivity.
Qed.

Lemma cyc_read_nowrap (s : list Z) (p n : Z) :
  0 <= p -> 0 <= n -> p + n <= C -> len s = C ->
  cyc_read C s p n = firstn (Z.to_nat n) (skipn (Z.to_nat p) s).
Proof.
  intros Hp Hn Hpn Hs. unfold len in Hs.
  apply nth_ext with (d := 0) (d' := 0).
  - rewrite cyc_read_length, length_firstn, length_skipn. lia.
  - intros i Hi. rewrite cyc_read_length in Hi.
    rewrite cyc_read_nth by exact Hi.
    rewrite nth_firstn.
    replace (i <? Z.to_nat n)%nat with true by (symmetry; apply Nat.ltb_lt; lia).
    rewrite nth_skipn. unfold get.
    rewrite Z.mod_small by lia. f_equal. lia.
Qed.

Lemma cyc_read_app (s : list Z) (p n1 n2 : Z) :
  0 <= n1 -> 0 <= n2 ->
  cyc_read C s p (n1 + n2)
  = cyc_read C s p n1 ++ cyc_read C s ((p + n1) mod C) n2.
Proof.
  intros H1 H2.
  apply nth_ext with (d := 0) (d' := 0).
  - rewrite length_app, !cyc_read_length. lia.
  - intros i Hi. rewrite cyc_read_length in Hi.
    rewrite cyc_read_nth by exact Hi.
    destruct (Nat.lt_ge_cases i (Z.to_nat n1)) as [Hlt | Hge].
    + rewrite app_nth1 by (rewrite cyc_read_length; exact Hlt).
      rewrite cyc_read_nth by exact Hlt. reflexivity.
    + rewrite app_nth2 by (rewrite cyc_read_length; exact Hge).
      rewrite cyc_read_length, cyc_read_nth by lia.
      rewrite Zplus_mod_idemp_l. do 2 f_equal. lia.
Qed.

Lemma cyc_read_skipn (s : list Z) (p n k : Z) :
  0 <= k <= n ->
  skipn (Z.to_nat k) (cyc_read C s p n) = cyc_read C s ((p + k) mod C) (n - k).
Proof.
  intros Hk. replace n with (k + (n - k)) at 1 by lia.
  rewrite cyc_read_app by lia.
  rewrite skipn_app, skipn_all2 by (rewrite cyc_read_length; lia).
  rewrite cyc_read_length, Nat.sub_diag. reflexivity.
Qed.

Lemma cyc_read_firstn (s : list Z) (p n k : Z) :
  0 <= k <= n ->
  firstn (Z.to_nat k) (cyc_read C s p n) = cyc_read C s p k.
Proof.
  intros Hk. replace n with (k + (n - k)) by lia.
  rewrite cyc_read_app by lia.
  rewrite firstn_app, firstn_all2 by (rewrite cyc_read_length; lia).
  rewrite cyc_read_length, Nat.sub_diag, firstn_O, app_nil_r. reflexivity.
Qed.

End RingFacts.

(** ** The callback, case by case *)

(** Settles the comparisons and the 32-bit reductions the context decides. *)
Ltac settle1 :=
  match goal with
  | |- context [uint ?x] => rewrite (uint_small x) by lia
  | |- context [Z.ltb ?a ?b] =>
      first [ replace (Z.ltb a b) with true by (symmetry; apply Z.ltb_lt; lia)
            | replace (Z.ltb a b) with false by (symmetry; apply Z.ltb_ge; lia) ]
  | |- context [Z.leb ?a ?b] =>
      first [ replace (Z.leb a b) with true by (symmetry; apply Z.leb_le; lia)
            | replace (Z.leb a b) with false by (symmetry; apply Z.leb_gt; lia) ]
  | |- context [Z.eqb ?a ?b] =>
      first [ replace (Z.eqb a b) with true by (symmetry; apply Z.eqb_eq; lia)
            | replace (Z.eqb a b) with false by (symmetry; apply Z.eqb_neq; lia) ]
  end.

Ltac run_callback :=
  repeat first
    [ rewrite memcpy_overlay by len_solve
    | rewrite memset_overlay by len_solve
    | progress cbn [bind]
    | rewrite Z.gtb_ltb
    | rewrite andb_false_r
    | rewrite Z.min_l by lia
    | rewrite Z.min_r by lia
    | settle1 | progress cbn [andb orb] | progress cbv beta iota ].

Lemma repeat_none (v n : Z) : n <= 0 -> repeat v (Z.to_nat n) = [].
Proof. intros. replace (Z.to_nat n) with O by lia. reflexivity. Qed.

Lemma cyc_read_wrap (C : Z) (s : list Z) (p n : Z) :
  0 <= p <= C -> 0 <= n ->
  cyc_read C s p (C - p) ++ cyc_read C s 0 n = cyc_read C s p (C - p + n).
Proof.
  intros Hp Hn. rewrite cyc_read_app by lia.
  replace (p + (C - p)) with C by lia.
  rewrite Z_mod_same_full. reflexivity.
Qed.

Ltac finish_callback C s :=
  rewrite ?overlay_full by len_solve;
  cbn [app];
  rewrite <- ?(cyc_read_nowrap C s) by lia;
  rewrite ?cyc_read_wrap by lia;
  repeat match goal with
  | |- context [repeat 0 (Z.to_nat ?n)] => rewrite (repeat_none 0 n) by lia
  end;
  rewrite ?app_nil_r;
  repeat (f_equal; try lia).

Section Callback.

Variable C : Z.

(** What one invocation does to the cursors and to the block. *)
Lemma callback_spec (ca : coreaudio_output_data) (buffer : AudioQueueBuffer) :
  ring_inv C ca ->
  0 <= mAudioDataBytesCapacity buffer < 2 ^ 32 ->
  len (mAudioData buffer) = mAudioDataBytesCapacity buffer ->
  audio_queue_output_callback C ca buffer
  = let B := mAudioDataBytesCapacity buffer in
    let m := Z.min B (readable C ca) in
    Done ({| source_buffer := source_buffer ca;
             source_buffer_start :=
               if source_buffer_start ca + m <? C
               then source_buffer_start ca + m
               else source_buffer_start ca + m - C;
             source_buffer_end :=
               if (source_buffer_end ca =? C)
                  && (C - source_buffer_start ca <=? B)
               then 0 else source_buffer_end ca |},
          {| mAudioDataBytesCapacity := B;
             mAudioData :=
               cyc_read C (source_buffer ca) (source_buffer_start ca) m
               ++ repeat 0 (Z.to_nat (B - m));
             mAudioDataByteSize := B |}).
Proof.
  destruct ca as [s st en], buffer as [B d bs].
  unfold ring_inv, readable.
  cbn [source_buffer source_buffer_start source_buffer_end
       mAudioDataBytesCapacity mAudioData mAudioDataByteSize].
  intros (HC & Hs & Hst & Hen) HB Hd.
  unfold audio_queue_output_callback.
  cbn [source_buffer source_buffer_start source_buffer_end
       mAudioDataBytesCapacity mAudioData mAudioDataByteSize].
  cbv beta zeta. unfold usub, uadd. rewrite !Z.gtb_ltb.
  change d with ([] ++ skipn (length (@nil Z)) d) at 1.
  destruct (Z.lt_ge_cases st en) as [Hlt | Hge].
  - destruct (Z.lt_trichotomy B (en - st)) as [Hb | [Hb | Hb]];
      destruct (Z.eq_dec en C) as [He | He];
      run_callback; finish_callback C s.
  - destruct (Z.lt_trichotomy B (C - st)) as [Hb | [Hb | Hb]].
    1,2: run_callback; finish_callback C s. 
    destruct (Z.eq_dec en 0) as [He | He];
    [| destruct (Z.lt_trichotomy B (C - st + en)) as [Hb2 | [Hb2 | Hb2]] ];
    run_callback; finish_callback C s.
Qed.
End Callback.

(** ** Storing around the ring *)

Lemma get_app_l (a b : list Z) (j : Z) :
  0 <= j < len a -> get (a ++ b) j = get a j.
Proof. unfold get, len. intros. apply app_nth1. lia. Qed.

Lemma get_app_r (a b : list Z) (j : Z) :
  len a <= j -> get (a ++ b) j = get b (j - len a).
Proof.
  unfold get, len. intros. rewrite app_nth2 by lia. f_equal. lia.
Qed.

Lemma get_firstn (s : list Z) (n j : Z) :
  0 <= j < n -> get (firstn (Z.to_nat n) s) j = get s j.
Proof.
  unfold get. intros. rewrite nth_firstn.
  replace (Z.to_nat j <? Z.to_nat n)%nat with true
    by (symmetry; apply Nat.ltb_lt; lia).
  reflexivity.
Qed.

Lemma get_skipn (s : list Z) (n j : Z) :
  0 <= n -> 0 <= j -> get (skipn (Z.to_nat n) s) j = get s (n + j).
Proof.
  unfold get. intros. rewrite nth_skipn. f_equal. lia.
Qed.

Lemma slice_split (s : list Z) (p c n : Z) :
  0 <= p -> 0 <= c <= n ->
  firstn (Z.to_nat n) (skipn (Z.to_nat p) s)
  = firstn (Z.to_nat c) (skipn (Z.to_nat p) s)
    ++ firstn (Z.to_nat (n - c)) (skipn (Z.to_nat (p + c)) s).
Proof.
  intros Hp Hc.
  rewrite <- (firstn_skipn (Z.to_nat c)
                (firstn (Z.to_nat n) (skipn (Z.to_nat p) s))) at 1.
  rewrite firstn_firstn, skipn_firstn_comm, skipn_skipn.
  rewrite Nat.min_l by lia.
  do 2 f_equal; [lia | f_equal; lia].
Qed.

Lemma mod_apart (C x d : Z) :
  0 < C -> 0 < d < C -> (x + d) mod C <> x mod C.
Proof.
  intros HC Hd Heq.
  assert (H : (x + d - x) mod C = 0).
  { rewrite Zminus_mod, Heq, Z.sub_diag. apply Z.mod_0_l. lia. }
  replace (x + d - x) with d in H by lia.
  rewrite Z.mod_small in H by lia. lia.
Qed.

Section Written.

Variable C : Z.
Hypothesis C_pos : 0 < C.

Lemma written_nil (s : list Z) (p : Z) : written C s p [] s.
Proof.
  unfold written. repeat split.
  unfold len; simpl; intros; lia.
Qed.

(** One [memcpy] into the ring that stays below its end. *)
Lemma written_segment (s seg : list Z) (e : Z) :
  0 <= e -> e + len seg <= C -> len s = C ->
  written C s e seg
    (firstn (Z.to_nat e) s ++ seg ++ skipn (Z.to_nat (e + len seg)) s).
Proof.
  intros He Hfit Hs.
  pose proof (len_nonneg seg) as Hseg.
  assert (Hf : len (firstn (Z.to_nat e) s) = e)
    by (unfold len in *; rewrite length_firstn; lia).
  unfold written. split; [| split].
  - unfold len in *. rewrite !length_app, length_firstn, length_skipn. lia.
  - intros j Hj _. rewrite Z.mod_small by lia.
    rewrite get_app_r by lia. rewrite Hf.
    rewrite get_app_l by lia. f_equal. lia.
  - intros i Hi Hmiss.
    destruct (Z.lt_ge_cases i e) as [Hlo | Hhi].
    + rewrite get_app_l by lia. apply get_firstn. lia.
    + assert (Hout : e + len seg <= i).
      { destruct (Z.lt_ge_cases i (e + len seg)) as [Hin | Hin]; [| exact Hin].
        exfalso. apply (Hmiss (i - e)); [lia |].
        rewrite Z.mod_small by lia. lia. }
      rewrite get_app_r by lia. rewrite Hf.
      rewrite get_app_r by lia.
      rewrite get_skipn by lia. f_equal. lia.
Qed.

(** Storing [a] and then [b] behind it stores [a ++ b]. *)
Lemma written_app (s s' s'' a b : list Z) (p : Z) :
  written C s p a s' ->
  written C s' ((p + len a) mod C) b s'' ->
  written C s p (a ++ b) s''.
Proof.
  intros (La & Wa & Ua) (Lb & Wb & Ub).
  pose proof (len_nonneg a) as Ha. pose proof (len_nonneg b) as Hb.
  unfold written. split; [| split].
  - congruence.
  - intros j Hj Hlast. rewrite len_app in Hj, Hlast.
    destruct (Z.lt_ge_cases j (len a)) as [Hl | Hr].
    + rewrite get_app_l by lia.
      rewrite Ub.
      * apply Wa; lia.
      * apply Z.mod_pos_bound. exact C_pos.
      * intros j' Hj'. rewrite Zplus_mod_idemp_l.
        replace (p + len a + j') with (p + j + (len a + j' - j)) by lia.
        apply mod_apart; lia.
    + rewrite get_app_r by lia.
      rewrite <- (Wb (j - len a)) by lia.
      rewrite Zplus_mod_idemp_l. do 2 f_equal. lia.
  - intros i Hi Hmiss. rewrite Ub.
    + apply Ua; [exact Hi |].
      intros j Hj. apply Hmiss. rewrite len_app. lia.
    + exact Hi.
    + intros j Hj. rewrite Zplus_mod_idemp_l.
      replace (p + len a + j) with (p + (len a + j)) by lia.
      apply Hmiss. rewrite len_app. lia.
Qed.

End Written.

(** ** The producer loop *)

Lemma memcpy_inbounds (dst src : list Z) (doff soff n : Z) :
  0 <= doff -> 0 <= soff -> 0 <= n ->
  doff + n <= len dst -> soff + n <= len src ->
  memcpy dst doff src soff n
  = Done (firstn (Z.to_nat doff) dst
          ++ firstn (Z.to_nat n) (skipn (Z.to_nat soff) src)
          ++ skipn (Z.to_nat (doff + n)) dst).
Proof.
  intros. unfold memcpy.
  replace ((0 <=? doff) && (0 <=? soff) && (0 <=? n)
           && (doff + n <=? len dst) && (soff + n <=? len src)) with true.
  - reflexivity.
  - symmetry. repeat (apply andb_true_intro; split); apply Z.leb_le; lia.
Qed.

Lemma sum_sizes_cons (x : Z) (l : list Z) : sum_sizes (x :: l) = x + sum_sizes l.
Proof. reflexivity. Qed.

Lemma len_cons {A : Type} (x : A) (l : list A) : len (x :: l) = 1 + len l.
Proof. unfold len. cbn [length]. lia. Qed.

Section Send.

Variable C : Z.
Variable data : receiver_data_t.
Hypothesis size_fits : 0 <= audio_size data <= len (audio data).
Hypothesis size_32 : audio_size data < 2 ^ 32.

Lemma wrapped_range (e : Z) : 0 < C -> 0 <= e <= C -> 0 <= wrapped C e < C.
Proof. unfold wrapped. intros. destruct (Z.eqb_spec e C); lia. Qed.

Lemma wrapped_mod (e : Z) : 0 < C -> 0 <= e <= C -> wrapped C e = e mod C.
Proof.
  unfold wrapped. intros. destruct (Z.eqb_spec e C) as [-> | Hne].
  - symmetry. apply Z_mod_same_full.
  - symmetry. apply Z.mod_small. lia.
Qed.

Lemma send_loop_done (fuel : nat) (ca : coreaudio_output_data) (segs : list Z) :
  send_loop C fuel ca data (audio_size data) segs = Done (ca, segs).
Proof.
  destruct fuel; cbn [send_loop]; unfold usub;
    rewrite Z.sub_diag; reflexivity.
Qed.

Lemma send_loop_spec (fuel : nat) :
  forall (ca : coreaudio_output_data) (copied : Z) (segs : list Z),
  ring_inv C ca ->
  0 <= copied <= audio_size data ->
  audio_size data - copied + wrapped C (source_buffer_end ca)
    <= C * Z.of_nat fuel ->
  exists ca' segs',
    send_loop C fuel ca data copied segs = Done (ca', segs ++ segs')
    /\ ring_inv C ca'
    /\ source_buffer_start ca' = source_buffer_start ca
    /\ written C (source_buffer ca) (wrapped C (source_buffer_end ca))
         (firstn (Z.to_nat (audio_size data - copied))
                 (skipn (Z.to_nat copied) (audio data)))
         (source_buffer ca')
    /\ source_buffer_end ca'
       = (if audio_size data - copied =? 0 then source_buffer_end ca
          else (wrapped C (source_buffer_end ca)
                + (audio_size data - copied) - 1) mod C + 1)
    /\ Forall (fun x => 0 < x <= C) segs'
    /\ sum_sizes segs' = audio_size data - copied
    /\ C * len segs' < audio_size data - copied
                       + wrapped C (source_buffer_end ca) + C.
Proof.
  induction fuel as [| fuel IH]; intros ca copied segs Hinv Hc Hfuel.
  - pose proof Hinv as (HC & _ & _ & He).
    pose proof (wrapped_range _ (proj1 HC) He) as Hw.
    assert (copied = audio_size data) as -> by lia.
    exists ca, []. rewrite send_loop_done, app_nil_r, Z.sub_diag.
    cbn [Z.eqb firstn Z.to_nat].
    split; [reflexivity |]. split; [exact Hinv |]. split; [reflexivity |].
    split; [apply written_nil |]. split; [reflexivity |].
    split; [constructor |]. split; [reflexivity |].
    change (len (@nil Z)) with 0. lia.
  - pose proof Hinv as (HC & Hs & Hst & He).
    pose proof (wrapped_range _ (proj1 HC) He) as Hw.
    destruct (Z.eq_dec copied (audio_size data)) as [-> | Hne].
    { exists ca, []. rewrite send_loop_done, app_nil_r, Z.sub_diag.
      cbn [Z.eqb firstn Z.to_nat].
      split; [reflexivity |]. split; [exact Hinv |]. split; [reflexivity |].
      split; [apply written_nil |]. split; [reflexivity |].
      split; [constructor |]. split; [reflexivity |].
      change (len (@nil Z)) with 0. lia. }
    destruct ca as [s st en].
    cbn [source_buffer source_buffer_start source_buffer_end] in *.
    cbn [send_loop source_buffer source_buffer_start source_buffer_end].
    cbv beta zeta. fold (wrapped C en).
    set (e1 := wrapped C en) in *.
    set (n := audio_size data) in *.
    unfold usub, uadd. rewrite Z.gtb_ltb.
    rewrite !(uint_small (n - copied)) by lia.
    rewrite (uint_small (C - e1)) by lia.
    replace (0 <? n - copied) with true by (symmetry; apply Z.ltb_lt; lia).
    replace (n - copied =? 0) with false by (symmetry; apply Z.eqb_neq; lia).
    set (c := if n - copied <? C - e1 then n - copied else C - e1).
    assert (Hcs : 0 < c <= C - e1
                  /\ (c = n - copied \/ (c = C - e1 /\ c < n - copied))).
    { subst c. destruct (Z.ltb_spec (n - copied) (C - e1)); lia. }
    destruct Hcs as (Hcr & Hcase).
    rewrite (uint_small (e1 + c)), (uint_small (copied + c)) by lia.
    rewrite memcpy_inbounds by lia. cbn [bind].
    set (seg := firstn (Z.to_nat c) (skipn (Z.to_nat copied) (audio data))).
    assert (Hseg : len seg = c) by (apply len_slice; lia).
    set (s1 := firstn (Z.to_nat e1) s ++ seg ++ skipn (Z.to_nat (e1 + c)) s).
    assert (Hw1 : written C s e1 seg s1).
    { subst s1. rewrite <- Hseg. apply written_segment; lia. }
    assert (Hinv1 : ring_inv C {| source_buffer := s1;
                                  source_buffer_start := st;
                                  source_buffer_end := e1 + c |}).
    { unfold ring_inv. cbn [source_buffer source_buffer_start source_buffer_end].
      destruct Hw1 as (Hl & _). unfold len in *. rewrite Hl. lia. }
    destruct Hcase as [Hlast | (Hfull & Hmore)].
    + (* the chunk ends in this segment *)
      replace (copied + c) with n by lia.
      rewrite send_loop_done.
      eexists; exists [c].
      split; [reflexivity |]. split; [exact Hinv1 |].
      cbn [source_buffer source_buffer_start source_buffer_end].
      split; [reflexivity |].
      split; [rewrite <- Hlast; exact Hw1 |].
      split; [rewrite Z.mod_small by lia; lia |].
      split; [repeat constructor; lia |].
      split; [rewrite sum_sizes_cons; cbn; lia |].
      rewrite len_cons. change (len (@nil Z)) with 0. lia.
    + (* more to copy: the segment reached the end of the ring *)
      assert (Hwz : wrapped C (e1 + c) = 0).
      { unfold wrapped. replace (e1 + c =? C) with true
          by (symmetry; apply Z.eqb_eq; lia). reflexivity. }
      destruct (IH {| source_buffer := s1;
                      source_buffer_start := st;
                      source_buffer_end := e1 + c |}
                   (copied + c) (segs ++ [c]) Hinv1)
        as (ca' & segs' & Hrun & Hinv' & Hst' & Hw' & He' & Hall & Hsum & Hcnt).
      { lia. }
      { cbn [source_buffer_end]. rewrite Hwz. nia. }
      cbn [source_buffer source_buffer_start source_buffer_end] in *.
      rewrite Hwz in *.
      exists ca', (c :: segs').
      split; [rewrite Hrun, <- app_assoc; reflexivity |].
      split; [exact Hinv' |]. split; [exact Hst' |].
      split.
      { rewrite (slice_split (audio data) copied c (n - copied)) by lia.
        fold seg. apply written_app with (s' := s1); [lia | exact Hw1 |].
        rewrite Hseg.
        replace ((e1 + c) mod C) with 0
          by (replace (e1 + c) with C by lia; symmetry; apply Z_mod_same_full).
        replace (n - copied - c) with (n - (copied + c)) by lia.
        exact Hw'. }
      split.
      { rewrite He'.
        replace (n - (copied + c) =? 0) with false
          by (symmetry; apply Z.eqb_neq; lia).
        replace (e1 + (n - copied) - 1)
          with (0 + (n - (copied + c)) - 1 + 1 * C) by lia.
        rewrite Z_mod_plus_full. reflexivity. }
      split; [constructor; [lia | exact Hall] |].
      split; [rewrite sum_sizes_cons; lia |].
      rewrite len_cons. nia.
Qed.

End Send.

(** ** Feeding *)

Section Feed.

Variable C : Z.

Lemma readable_range (ca : coreaudio_output_data) :
  ring_inv C ca -> 0 < readable C ca <= C.
Proof.
  unfold ring_inv, readable. intros (HC & _ & Hst & He).
  destruct (Z.ltb_spec (source_buffer_start ca) (source_buffer_end ca)); lia.
Qed.

Lemma feed_spec (B : Z) (junk : list Z) (ca : coreaudio_output_data) :
  ring_inv C ca -> 0 <= B < 2 ^ 32 -> len junk = B ->
  feed C B junk ca = Done (fed C B ca, played C B ca).
Proof.
  intros Hinv HB Hj. unfold feed.
  rewrite callback_spec by (cbn; assumption).
  cbn [allocate_buffer mAudioDataBytesCapacity mAudioData mAudioDataByteSize
       bind].
  pose proof (readable_range ca Hinv) as Hr.
  unfold fed, played. f_equal. f_equal.
  apply firstn_all2. rewrite length_app, cyc_read_length, repeat_length. lia.
Qed.

Lemma played_length (B : Z) (ca : coreaudio_output_data) :
  ring_inv C ca -> 0 <= B -> len (played C B ca) = B.
Proof.
  intros Hinv HB. pose proof (readable_range ca Hinv) as Hr.
  unfold played, len. rewrite length_app, cyc_read_length, repeat_length. lia.
Qed.

Lemma ring_inv_fed (B : Z) (ca : coreaudio_output_data) :
  ring_inv C ca -> 0 <= B -> ring_inv C (fed C B ca).
Proof.
  intros Hinv HB. pose proof (readable_range ca Hinv) as Hr.
  revert Hinv Hr. unfold ring_inv, fed, readable.
  cbn [source_buffer source_buffer_start source_buffer_end].
  intros (HC & Hs & Hst & He).
  destruct (Z.ltb_spec (source_buffer_start ca) (source_buffer_end ca));
    intros Hr;
    repeat match goal with
    | |- context [Z.ltb ?a ?b] => destruct (Z.ltb_spec a b)
    | |- context [Z.leb ?a ?b] => destruct (Z.leb_spec a b)
    | |- context [Z.eqb ?a ?b] => destruct (Z.eqb_spec a b)
    end; cbn [andb]; lia.
Qed.

(** A feed that does not empty the ring leaves the rest readable. *)
Lemma readable_fed (B : Z) (ca : coreaudio_output_data) :
  ring_inv C ca -> 0 <= B < readable C ca ->
  readable C (fed C B ca) = readable C ca - B
  /\ source_buffer_start (fed C B ca) = (source_buffer_start ca + B) mod C.
Proof.
  intros Hinv HB. pose proof (readable_range ca Hinv) as Hr.
  revert Hinv Hr HB. unfold ring_inv, fed.
  cbn [source_buffer source_buffer_start source_buffer_end].
  intros (HC & Hs & Hst & He) Hr HB.
  rewrite Z.min_l by lia. revert Hr HB. unfold readable.
  cbn [source_buffer source_buffer_start source_buffer_end].
  destruct (Z.ltb_spec (source_buffer_start ca) (source_buffer_end ca));
    intros Hr HB.
  - replace (source_buffer_start ca + B <? C) with true
      by (symmetry; apply Z.ltb_lt; lia).
    rewrite (Z.mod_small (source_buffer_start ca + B)) by lia.
    destruct (Z.eqb_spec (source_buffer_end ca) C);
      destruct (Z.leb_spec (C - source_buffer_start ca) B);
      cbn [andb]; try lia.
    all: replace (source_buffer_start ca + B <? source_buffer_end ca) with true
      by (symmetry; apply Z.ltb_lt; lia); lia.
  - replace (source_buffer_end ca =? C) with false
      by (symmetry; apply Z.eqb_neq; lia).
    cbn [andb].
    destruct (Z.ltb_spec (source_buffer_start ca + B) C).
    + rewrite (Z.mod_small (source_buffer_start ca + B)) by lia.
      replace (source_buffer_start ca + B <? source_buffer_end ca) with false
        by (symmetry; apply Z.ltb_ge; lia).
      lia.
    + replace (source_buffer_start ca + B - C <? source_buffer_end ca) with true
        by (symmetry; apply Z.ltb_lt; lia).
      split; [lia |].
      transitivity ((source_buffer_start ca + B - C + 1 * C) mod C);
        [| f_equal; lia].
      rewrite Z_mod_plus_full. symmetry. apply Z.mod_small. lia.
Qed.

(** [k] feeds in a row: every block is full, and the bytes between the
    cursors come out first, in order. *)
Lemma feeds_spec (B : Z) (junk : list Z) (k : nat) :
  forall ca : coreaudio_output_data,
  ring_inv C ca -> 0 <= B < 2 ^ 32 -> len junk = B ->
  exists ca' blks,
    feeds C k B junk ca = Done (ca', blks)
    /\ ring_inv C ca'
    /\ source_buffer ca' = source_buffer ca
    /\ length blks = k
    /\ Forall (fun b => len b = B) blks
    /\ (readable C ca <= Z.of_nat k * B ->
        firstn (Z.to_nat (readable C ca)) (concat blks)
        = cyc_read C (source_buffer ca) (source_buffer_start ca)
                   (readable C ca)).
Proof.
  induction k as [| k IH]; intros ca Hinv HB Hj;
    pose proof (readable_range ca Hinv) as Hr.
  - exists ca, []. cbn [feeds].
    split; [reflexivity |]. split; [exact Hinv |]. split; [reflexivity |].
    split; [reflexivity |]. split; [constructor |]. lia.
  - destruct (IH (fed C B ca)) as (ca' & blks & Hrun & Hinv' & Hsb & Hlen & Hall & Hdel).
    { apply ring_inv_fed; [exact Hinv | lia]. }
    { exact HB. }
    { exact Hj. }
    exists ca', (played C B ca :: blks).
    cbn [feeds]. rewrite feed_spec by assumption. cbn [bind].
    rewrite Hrun. cbn [bind].
    split; [reflexivity |]. split; [exact Hinv' |].
    split; [rewrite Hsb; reflexivity |].
    split; [cbn [length]; congruence |].
    split; [constructor; [apply played_length; [exact Hinv | lia] | exact Hall] |].
    intros Hk. cbn [concat].
    set (n := readable C ca) in *.
    destruct (Z.le_gt_cases n B) as [Hle | Hgt].
    + unfold played. fold n. rewrite Z.min_r by lia.
      rewrite <- app_assoc, firstn_app, cyc_read_length, Nat.sub_diag.
      rewrite firstn_O, app_nil_r.
      apply firstn_all2. rewrite cyc_read_length. lia.
    + destruct (readable_fed B ca Hinv) as (Hrf & Hsf); [fold n; lia |].
      fold n in Hrf.
      assert (Hp : played C B ca
                   = cyc_read C (source_buffer ca) (source_buffer_start ca) B).
      { unfold played. fold n. rewrite Z.min_l by lia.
        rewrite repeat_none by lia. apply app_nil_r. }
      rewrite Hp, firstn_app, cyc_read_length.
      rewrite firstn_all2 by (rewrite cyc_read_length; lia).
      replace (Z.to_nat n - Z.to_nat B)%nat with (Z.to_nat (n - B)) by lia.
      rewrite <- Hrf, Hdel by (rewrite Hrf; nia).
      rewrite Hrf, Hsf.
      replace (source_buffer (fed C B ca)) with (source_buffer ca)
        by reflexivity.
      rewrite <- cyc_read_app by lia. f_equal. lia.
Qed.

End Feed.

(** ** Ingesting *)

Section Ingest.

Variable C : Z.

Lemma ingest_spec (ca : coreaudio_output_data) (bytes : list Z) :
  ring_inv C ca -> len bytes < 2 ^ 32 ->
  exists ca',
    ingest C ca bytes = Done ca'
    /\ ring_inv C ca'
    /\ source_buffer_start ca' = source_buffer_start ca
    /\ written C (source_buffer ca) (wrapped C (source_buffer_end ca)) bytes
         (source_buffer ca')
    /\ source_buffer_end ca'
       = (if len bytes =? 0 then source_buffer_end ca
          else (wrapped C (source_buffer_end ca) + len bytes - 1) mod C + 1).
Proof.
  intros Hinv H32.
  pose proof (len_nonneg bytes) as Hn.
  pose proof Hinv as (HC & _ & _ & He).
  pose proof (wrapped_range C _ (proj1 HC) He) as Hw.
  destruct (send_loop_spec C (chunk_of bytes)) with
    (fuel := S (length bytes)) (ca := ca) (copied := 0) (segs := @nil Z)
    as (ca' & segs & Hrun & Hinv' & Hst & Hwr & Hend & _).
  - cbn [chunk_of audio_size audio]. lia.
  - cbn [chunk_of audio_size]. exact H32.
  - exact Hinv.
  - cbn [chunk_of audio_size]. lia.
  - cbn [chunk_of audio_size]. unfold len in *. nia.
  - cbn [chunk_of audio_size audio] in *.
    rewrite Z.sub_0_r in *.
    exists ca'. unfold ingest, coreaudio_output_send.
    rewrite Hrun. cbn [bind app].
    split; [reflexivity |]. split; [exact Hinv' |]. split; [exact Hst |].
    split; [| exact Hend].
    cbn [Z.to_nat skipn] in Hwr. unfold len in Hwr.
    rewrite Nat2Z.id, firstn_all in Hwr. exact Hwr.
Qed.

Lemma wrapped_advance (en n : Z) :
  0 < C -> 0 <= en <= C -> 0 <= n ->
  wrapped C (if n =? 0 then en else (wrapped C en + n - 1) mod C + 1)
  = (wrapped C en + n) mod C.
Proof.
  intros HC He Hn.
  pose proof (wrapped_range C en HC He) as Hw.
  destruct (Z.eqb_spec n 0) as [-> | Hne].
  - rewrite Z.add_0_r. symmetry. apply Z.mod_small. exact Hw.
  - pose proof (Z.mod_pos_bound (wrapped C en + n - 1) C HC) as Hr.
    assert (Hrhs : (wrapped C en + n) mod C
                   = ((wrapped C en + n - 1) mod C + 1) mod C).
    { rewrite Zplus_mod_idemp_l. f_equal. lia. }
    rewrite Hrhs.
    set (r := (wrapped C en + n - 1) mod C) in *.
    unfold wrapped at 1.
    destruct (Z.eqb_spec (r + 1) C) as [Heq | Hneq].
    + rewrite Heq. symmetry. apply Z_mod_same_full.
    + symmetry. apply Z.mod_small. lia.
Qed.

Lemma ingests_spec (chunks : list (list Z)) :
  forall ca : coreaudio_output_data,
  ring_inv C ca -> len (concat chunks) < 2 ^ 32 ->
  exists ca',
    ingests C ca chunks = Done ca'
    /\ ring_inv C ca'
    /\ source_buffer_start ca' = source_buffer_start ca
    /\ written C (source_buffer ca) (wrapped C (source_buffer_end ca))
         (concat chunks) (source_buffer ca')
    /\ source_buffer_end ca'
       = (if len (concat chunks) =? 0 then source_buffer_end ca
          else (wrapped C (source_buffer_end ca) + len (concat chunks) - 1)
               mod C + 1).
Proof.
  induction chunks as [| a rest IH]; intros ca Hinv H32.
  - exists ca. cbn [ingests concat].
    split; [reflexivity |]. split; [exact Hinv |]. split; [reflexivity |].
    split; [apply written_nil | reflexivity].
  - cbn [concat] in *. rewrite len_app in *.
    pose proof (len_nonneg a) as Ha.
    pose proof (len_nonneg (concat rest)) as Hrest.
    pose proof Hinv as (HC & _ & _ & He).
    pose proof (wrapped_range C _ (proj1 HC) He) as Hw.
    destruct (ingest_spec ca a Hinv) as (ca1 & Hrun1 & Hinv1 & Hst1 & Hw1 & He1);
      [lia |].
    destruct (IH ca1 Hinv1) as (ca' & Hrun & Hinv' & Hst & Hwr & Hend); [lia |].
    pose proof (wrapped_advance (source_buffer_end ca) (len a) (proj1 HC) He Ha)
      as Hadv.
    rewrite <- He1 in Hadv.
    exists ca'. cbn [ingests]. rewrite Hrun1. cbn [bind].
    split; [exact Hrun |]. split; [exact Hinv' |].
    split; [congruence |].
    split.
    + apply written_app with (s' := source_buffer ca1);
        [lia | exact Hw1 | rewrite <- Hadv; exact Hwr].
    + rewrite Hend, Hadv.
      destruct (Z.eqb_spec (len (concat rest)) 0) as [Hz | Hnz].
      * rewrite He1, Hz, Z.add_0_r. reflexivity.
      * replace (len a + len (concat rest) =? 0) with false
          by (symmetry; apply Z.eqb_neq; lia).
        replace ((wrapped C (source_buffer_end ca) + len a) mod C
                 + len (concat rest) - 1)
          with ((wrapped C (source_buffer_end ca) + len a) mod C
                 + (len (concat rest) - 1)) by lia.
        rewrite Zplus_mod_idemp_l. do 2 f_equal. lia.
Qed.

(** What was stored can be read back around the ring, as long as it is no
    longer than the ring. *)
Lemma written_read (s s' chunk : list Z) (p : Z) :
  written C s p chunk s' -> len chunk <= C ->
  cyc_read C s' p (len chunk) = chunk.
Proof.
  intros (_ & W & _) Hfit.
  apply nth_ext with (d := 0) (d' := 0).
  - rewrite cyc_read_length. unfold len. lia.
  - intros i Hi. rewrite cyc_read_length in Hi.
    rewrite cyc_read_nth by exact Hi.
    rewrite W by (unfold len in *; lia).
    unfold get. rewrite Nat2Z.id. reflexivity.
Qed.

Lemma readable_after_write (ca : coreaudio_output_data) (p n : Z) :
  0 < C -> 0 <= p < C -> 0 < n <= C ->
  source_buffer_start ca = p ->
  source_buffer_end ca = (p + n - 1) mod C + 1 ->
  readable C ca = n.
Proof.
  intros HC Hp Hn Hst Hen. unfold readable. rewrite Hst, Hen.
  destruct (Z.lt_ge_cases (p + n - 1) C) as [Hlo | Hhi].
  - rewrite Z.mod_small by lia.
    replace (p <? p + n - 1 + 1) with true by (symmetry; apply Z.ltb_lt; lia).
    lia.
  - replace ((p + n - 1) mod C) with (p + n - 1 - C).
    + replace (p <? p + n - 1 - C + 1) with false
        by (symmetry; apply Z.ltb_ge; lia).
      lia.
    + transitivity ((p + n - 1 - C + 1 * C) mod C); [| f_equal; lia].
      rewrite Z_mod_plus_full. symmetry. apply Z.mod_small. lia.
Qed.

End Ingest.

(** ** Further facts about the cursors *)

Lemma data_in_buffer_readable (C : Z) (ca : coreaudio_output_data) :
  ring_inv C ca -> 2 * C < 2 ^ 32 ->
  source_buffer_start ca <> source_buffer_end ca ->
  data_in_buffer C ca = readable C ca.
Proof.
  unfold ring_inv, data_in_buffer, readable, usub.
  intros (HC & _ & Hst & He) H2 Hne. cbv zeta.
  rewrite (uint_small (C + source_buffer_end ca - source_buffer_start ca))
    by lia.
  rewrite Z.geb_leb.
  destruct (Z.leb_spec C (C + source_buffer_end ca - source_buffer_start ca));
    destruct (Z.ltb_spec (source_buffer_start ca) (source_buffer_end ca));
    try lia.
  rewrite uint_small by lia. lia.
Qed.

Lemma readable_span (C : Z) (ca : coreaudio_output_data) (m : Z) :
  ring_inv C ca -> 0 < m <= C -> 0 < source_buffer_end ca ->
  source_buffer_start ca = (source_buffer_end ca - m) mod C ->
  readable C ca = m.
Proof.
  intros (HC & _ & Hst & He) Hm Hpos Hs. unfold readable. rewrite Hs.
  destruct (Z.lt_ge_cases (source_buffer_end ca - m) 0) as [Hneg | Hnn].
  - replace ((source_buffer_end ca - m) mod C)
      with (source_buffer_end ca - m + C).
    + replace (source_buffer_end ca - m + C <? source_buffer_end ca) with false
        by (symmetry; apply Z.ltb_ge; lia).
      lia.
    + transitivity ((source_buffer_end ca - m + C + -1 * C) mod C);
        [| f_equal; lia].
      rewrite Z_mod_plus_full. symmetry. apply Z.mod_small. lia.
  - rewrite Z.mod_small by lia.
    replace (source_buffer_end ca - m <? source_buffer_end ca) with true
      by (symmetry; apply Z.ltb_lt; lia).
    lia.
Qed.

Lemma len_le_sum_sizes (C : Z) (segs : list Z) :
  Forall (fun x => 0 < x <= C) segs -> len segs <= sum_sizes segs.
Proof.
  induction 1 as [| x l Hx _ IH].
  - reflexivity.
  - rewrite len_cons, sum_sizes_cons. lia.
Qed.

(** The pre-fill of [coreaudio_output_init] runs the callback on the zeroed
    ring with both cursors at 0: with the sizes of the source, the two blocks
    are silence read out of the ring, and the read cursor is left at 17640. *)
Lemma init_prefill :
  match coreaudio_output_init 35280
          (repeat (allocate_buffer AQ_BUF_SIZE
                     (repeat 85 (Z.to_nat AQ_BUF_SIZE))) AQ_BUF_COUNT)
  with
  | Done (ca, bufs) =>
      source_buffer_start ca = 17640 /\ source_buffer_end ca = 0
      /\ map mAudioData bufs
         = repeat (repeat 0 (Z.to_nat AQ_BUF_SIZE)) AQ_BUF_COUNT
  | _ => False
  end.
Proof. vm_compute. repeat split. Qed.

(** The same scenario on the ring as [coreaudio_output_init] leaves it, two
    blocks of 4 bytes pre-filled: the read cursor stands at 8 when the first
    bytes arrive, and the feeds return other blocks. *)
Lemma scenario_after_prefill :
  ('(ca0, _) <- coreaudio_output_init 16
                  (repeat (allocate_buffer 4 junk4) AQ_BUF_COUNT) ;;
   ca1 <- ingest 16 ca0 bytes_1_8 ;;
   '(ca2, first3) <- feeds 16 3 4 junk4 ca1 ;;
   ca3 <- ingest 16 ca2 bytes_9_28 ;;
   '(_, next4) <- feeds 16 4 4 junk4 ca3 ;;
   Done (source_buffer_start ca0, first3, next4))
  = Done (8,
          [[0; 0; 0; 0]; [0; 0; 0; 0]; [1; 2; 3; 4]],
          [[21; 22; 23; 24]; [25; 26; 27; 28];
           [13; 14; 15; 16]; [17; 18; 19; 20]]).
Proof. vm_compute. reflexivity. Qed.

(** From a ring with both cursors equal, chunks that together are no longer
    than the ring are all stored, and the feeds that follow deliver them
    first, byte for byte and in order. *)
Lemma no_loss_from_equal_cursors (C : Z) (ca : coreaudio_output_data)
  (chunks : list (list Z)) (B : Z) (junk : list Z) (k : nat) :
  ring_inv C ca ->
  source_buffer_start ca = source_buffer_end ca ->
  len (concat chunks) <= C ->
  0 < B < 2 ^ 32 -> len junk = B ->
  len (concat chunks) <= Z.of_nat k * B ->
  exists ca1 ca2 blks,
    ingests C ca chunks = Done ca1
    /\ feeds C k B junk ca1 = Done (ca2, blks)
    /\ firstn (length (concat chunks)) (concat blks) = concat chunks.
Proof.
  intros Hinv Hdrained Hfit HB Hj Hk.
  pose proof Hinv as (HC & _ & Hst & He).
  pose proof (len_nonneg (concat chunks)) as Hn.
  destruct (ingests_spec C chunks ca Hinv) as (ca1 & Hrun & Hinv1 & Hst1 & Hwr & Hend);
    [lia |].
  destruct (feeds_spec C B junk k ca1 Hinv1)
    as (ca2 & blks & Hfeeds & _ & _ & _ & _ & Hdel);
    [lia | exact Hj |].
  exists ca1, ca2, blks.
  split; [exact Hrun |]. split; [exact Hfeeds |].
  assert (Hwp : wrapped C (source_buffer_end ca) = source_buffer_start ca).
  { unfold wrapped. rewrite <- Hdrained.
    replace (source_buffer_start ca =? C) with false
      by (symmetry; apply Z.eqb_neq; lia).
    reflexivity. }
  rewrite Hwp in *.
  destruct (Z.eq_dec (len (concat chunks)) 0) as [Hz | Hnz].
  - unfold len in Hz.
    destruct (concat chunks); [reflexivity | cbn [length] in Hz; lia].
  - replace (len (concat chunks) =? 0) with false in Hend
      by (symmetry; apply Z.eqb_neq; lia).
    assert (Hr : readable C ca1 = len (concat chunks)).
    { apply readable_after_write with (p := source_buffer_start ca);
        [lia | lia | lia | exact Hst1 | exact Hend]. }
    rewrite Hr, Hst1 in Hdel.
    unfold len in Hdel at 2. rewrite Nat2Z.id in Hdel.
    rewrite Hdel by exact Hk.
    apply written_read with (s := source_buffer ca); assumption.
Qed.

(** Three chunks of 3, 0 and 2 bytes into a drained ring, two feeds of 4. *)
Lemma no_loss_from_equal_cursors_example :
  exists ca1 ca2 blks,
    ingests 16 ring_drained [[21; 22; 23]; []; [24; 25]] = Done ca1
    /\ feeds 16 2 4 junk4 ca1 = Done (ca2, blks)
    /\ firstn 5 (concat blks) = [21; 22; 23; 24; 25].
Proof.
  apply (no_loss_from_equal_cursors 16 ring_drained
           [[21; 22; 23]; []; [24; 25]] 4 junk4 2).
  - unfold ring_inv, len. cbn. lia.
  - reflexivity.
  - unfold len. cbn. lia.
  - lia.
  - reflexivity.
  - unfold len. cbn. lia.
Defined.

(** Where a write of [n > 0] bytes from index [w] leaves the write cursor. *)
Lemma end_after_write (C w n : Z) :
  0 < C -> 0 <= w < C -> 0 < n ->
  0 < (w + n - 1) mod C + 1
  /\ ((w + n - 1) mod C + 1 = C <-> (w + n) mod C = 0).
Proof.
  intros HC Hw Hn.
  pose proof (Z.mod_pos_bound (w + n - 1) C HC) as Hr.
  assert (Hrhs : (w + n) mod C = ((w + n - 1) mod C + 1) mod C).
  { rewrite Zplus_mod_idemp_l. f_equal. lia. }
  rewrite Hrhs. set (r := (w + n - 1) mod C) in *.
  split; [lia |].
  destruct (Z.eq_dec (r + 1) C) as [Heq | Hne].
  - rewrite Heq, Z_mod_same_full. tauto.
  - rewrite Z.mod_small by lia. lia.
Qed.

(** * The properties of the specification *)

(** ** C1 *)

(** C1: with a ring of 16 bytes and blocks of 4, starting from the zeroed
    ring with both cursors at 0: after the 8 bytes 1..8 the three feeds return
    [1,2,3,4], [5,6,7,8] and [0,0,0,0]; after the 20 bytes 9..28 the next four
    feeds return 13..16, 17..20, 21..24 and 25..28, whatever the blocks held
    before. *)
Theorem C1_concrete_scenario (a b c d : Z) :
  scenario 16 4 [a; b; c; d]
  = Done ([[1; 2; 3; 4]; [5; 6; 7; 8]; [0; 0; 0; 0]],
          [[13; 14; 15; 16]; [17; 18; 19; 20];
           [21; 22; 23; 24]; [25; 26; 27; 28]]).
Proof. vm_compute. reflexivity. Qed.

(** ** C2 *)

(** C2 (as the code has it): in a ring whose cursors differ, with the
    occupancy the diagnostics compute, a callback on a block of [B] bytes that
    finds fewer than [B] bytes hands back those bytes in order, then zeros, and
    reports the length [B]. *)
Theorem C2_underrun_fill (C : Z) (ca : coreaudio_output_data)
  (buffer : AudioQueueBuffer) :
  ring_inv C ca -> 2 * C < 2 ^ 32 ->
  source_buffer_start ca <> source_buffer_end ca ->
  0 <= mAudioDataBytesCapacity buffer < 2 ^ 32 ->
  len (mAudioData buffer) = mAudioDataBytesCapacity buffer ->
  data_in_buffer C ca < mAudioDataBytesCapacity buffer ->
  exists ca' buffer',
    audio_queue_output_callback C ca buffer = Done (ca', buffer')
    /\ mAudioData buffer'
       = cyc_read C (source_buffer ca) (source_buffer_start ca)
                  (data_in_buffer C ca)
         ++ repeat 0 (Z.to_nat (mAudioDataBytesCapacity buffer
                                - data_in_buffer C ca))
    /\ len (mAudioData buffer') = mAudioDataBytesCapacity buffer
    /\ mAudioDataByteSize buffer' = mAudioDataBytesCapacity buffer.
Proof.
  intros Hinv H2 Hne HB Hd Hlow.
  rewrite data_in_buffer_readable in * by assumption.
  pose proof (readable_range C ca Hinv) as Hr.
  rewrite callback_spec by assumption. cbv zeta.
  rewrite Z.min_r by lia.
  eexists; eexists. split; [reflexivity |].
  cbn [mAudioData mAudioDataByteSize].
  split; [reflexivity |]. split; [| reflexivity].
  unfold len. rewrite length_app, cyc_read_length, repeat_length. lia.
Qed.

(** Two bytes before the end of a ring of 16 and one after it, block of 4. *)
Lemma C2_underrun_fill_witness :
  exists ca' buffer',
    audio_queue_output_callback 16
      {| source_buffer := bytes_1_16;
         source_buffer_start := 14;
         source_buffer_end := 1 |}
      (allocate_buffer 4 junk4)
    = Done (ca', buffer')
    /\ mAudioData buffer' = [15; 16; 1; 0]
    /\ len (mAudioData buffer') = 4
    /\ mAudioDataByteSize buffer' = 4.
Proof.
  apply (C2_underrun_fill 16
           {| source_buffer := bytes_1_16;
              source_buffer_start := 14;
              source_buffer_end := 1 |}
           (allocate_buffer 4 junk4)).
  - unfold ring_inv, len. cbn. lia.
  - lia.
  - cbn. lia.
  - cbn. lia.
  - reflexivity.
  - vm_compute. reflexivity.
Defined.

(** C2, as worded, fails in two states of a ring of 16 bytes fed with blocks
    of 4. With 16 unread bytes and the write cursor left at 16 the derived
    occupancy is 0, yet the block is [1,2,3,4]; with both cursors at 0 after
    the ring was emptied the block is the stale [1,2,3,4] again. *)
Lemma C2_counterexample :
  (ingest 16 (ca_data_zero 16) bytes_1_16 = Done ring_full
   /\ ~ underrun_fill_claim 16 4 junk4 ring_full)
  /\ ((ca <- ingest 16 (ca_data_zero 16) bytes_1_16 ;;
       '(ca', _) <- feeds 16 4 4 junk4 ca ;; Done ca') = Done ring_drained
      /\ ~ underrun_fill_claim 16 4 junk4 ring_drained).
Proof.
  split; split; try (vm_compute; reflexivity).
  - intros H. destruct H as (ca' & Hf); [vm_compute; reflexivity |].
    vm_compute in Hf. discriminate Hf.
  - intros H. destruct H as (ca' & Hf); [vm_compute; reflexivity |].
    vm_compute in Hf. discriminate Hf.
Qed.

(** ** C3 *)

(** C3 (as the code has it): an ingest does not move the read cursor; it
    stores the chunk around the ring from the write cursor on, so that the last
    [min n C] bytes of the chunk lie in the ring, in order, in the span that
    ends at the new write cursor, and every byte of the ring the chunk did not
    reach is as before. The feeds that follow return those bytes first, in
    order, when the read cursor stands at the start of that span. *)
Theorem C3_latest_bytes_stored (C : Z) (ca : coreaudio_output_data)
  (chunk : list Z) :
  ring_inv C ca -> len chunk < 2 ^ 32 ->
  let m := Z.min (len chunk) C in
  exists ca',
    ingest C ca chunk = Done ca'
    /\ source_buffer_start ca' = source_buffer_start ca
    /\ cyc_read C (source_buffer ca') ((source_buffer_end ca' - m) mod C) m
       = skipn (Z.to_nat (len chunk - m)) chunk
    /\ (forall i, 0 <= i < C ->
          (forall j, 0 <= j < len chunk ->
             (wrapped C (source_buffer_end ca) + j) mod C <> i) ->
          get (source_buffer ca') i = get (source_buffer ca) i)
    /\ (forall (B : Z) (junk : list Z) (k : nat),
          0 < B < 2 ^ 32 -> len junk = B ->
          0 < len chunk -> m <= Z.of_nat k * B ->
          source_buffer_start ca = (source_buffer_end ca' - m) mod C ->
          exists ca2 blks,
            feeds C k B junk ca' = Done (ca2, blks)
            /\ firstn (Z.to_nat m) (concat blks)
               = skipn (Z.to_nat (len chunk - m)) chunk).
Proof.
  intros Hinv H32 m.
  pose proof Hinv as (HC & _ & Hst & He).
  pose proof (len_nonneg chunk) as Hn.
  pose proof (wrapped_range C _ (proj1 HC) He) as Hw.
  destruct (ingest_spec C ca chunk Hinv H32)
    as (ca' & Hrun & Hinv' & Hst' & (Hl & W & U) & Hend).
  pose proof Hinv' as (_ & _ & _ & He').
  assert (Hmod : source_buffer_end ca' mod C
                 = (wrapped C (source_buffer_end ca) + len chunk) mod C).
  { rewrite <- (wrapped_advance C (source_buffer_end ca) (len chunk))
      by lia.
    rewrite <- Hend. symmetry. apply wrapped_mod; lia. }
  assert (Hspan : cyc_read C (source_buffer ca')
                    ((source_buffer_end ca' - m) mod C) m
                  = skipn (Z.to_nat (len chunk - m)) chunk).
  { apply nth_ext with (d := 0) (d' := 0).
    - rewrite cyc_read_length, length_skipn. unfold len in *. lia.
    - intros i Hi. rewrite cyc_read_length in Hi.
      rewrite cyc_read_nth by exact Hi.
      rewrite nth_skipn.
      rewrite Zplus_mod_idemp_l.
      replace (source_buffer_end ca' - m + Z.of_nat i)
        with (source_buffer_end ca' + (Z.of_nat i - m)) by lia.
      rewrite <- Zplus_mod_idemp_l, Hmod, Zplus_mod_idemp_l.
      replace (wrapped C (source_buffer_end ca) + len chunk + (Z.of_nat i - m))
        with (wrapped C (source_buffer_end ca)
              + (len chunk - m + Z.of_nat i)) by lia.
      rewrite W by lia.
      unfold get. f_equal. lia. }
  exists ca'.
  split; [exact Hrun |]. split; [exact Hst' |]. split; [exact Hspan |].
  split; [exact U |].
  intros B junk k HB Hj Hpos Hk Hat.
  destruct (feeds_spec C B junk k ca' Hinv')
    as (ca2 & blks & Hfeeds & _ & _ & _ & _ & Hdel); [lia | exact Hj |].
  exists ca2, blks. split; [exact Hfeeds |].
  assert (Hr : readable C ca' = m).
  { apply readable_span; [exact Hinv' | lia | | congruence].
    rewrite Hend.
    replace (len chunk =? 0) with false by (symmetry; apply Z.eqb_neq; lia).
    pose proof (Z.mod_pos_bound
                  (wrapped C (source_buffer_end ca) + len chunk - 1) C
                  (proj1 HC)).
    lia. }
  rewrite Hr in Hdel. rewrite Hdel by exact Hk.
  rewrite Hst', Hat. exact Hspan.
Qed.

(** 20 bytes into the zeroed ring of 16: the ring ends up holding 5..20. *)
Lemma C3_latest_bytes_stored_witness :
  exists ca',
    ingest 16 (ca_data_zero 16) bytes_1_20 = Done ca'
    /\ source_buffer_start ca' = 0
    /\ cyc_read 16 (source_buffer ca') ((source_buffer_end ca' - 16) mod 16) 16
       = [5; 6; 7; 8; 9; 10; 11; 12; 13; 14; 15; 16; 17; 18; 19; 20].
Proof.
  destruct (C3_latest_bytes_stored 16 (ca_data_zero 16) bytes_1_20)
    as (ca' & Hrun & Hst & Hspan & _).
  - repeat split; vm_compute; solve [reflexivity | intro H; discriminate H].
  - vm_compute. reflexivity.
  - exists ca'. split; [exact Hrun |]. split; [exact Hst | exact Hspan].
Defined.

(** C3, as worded, fails: the 20 bytes 1..20 sent to the zeroed ring of 16
    bytes leave the read cursor at 0, and the four feeds of 4 bytes that
    follow return 17..20 and then 5..16, not 5..20. *)
Lemma C3_counterexample :
  (ca <- ingest 16 (ca_data_zero 16) bytes_1_20 ;;
   '(_, blks) <- feeds 16 4 4 junk4 ca ;; Done blks)
  = Done [[17; 18; 19; 20]; [5; 6; 7; 8]; [9; 10; 11; 12]; [13; 14; 15; 16]]
  /\ ~ recovers_latest 16 4 junk4 4 (ca_data_zero 16) bytes_1_20.
Proof.
  split; [vm_compute; reflexivity |].
  intros (ca1 & ca2 & blks & H1 & H2 & H3).
  vm_compute in H1. injection H1 as <-.
  vm_compute in H2. injection H2 as _ <-.
  vm_compute in H3. discriminate H3.
Qed.

(** ** C4 *)

(** C4, at the zeroed ring of 16 bytes fed with blocks of 4: the bytes 1..8
    are sent and two callbacks play them, which leaves the ring drained (both
    cursors at 8, the diagnostics count 0 bytes); one more callback runs with
    nothing to play; then the chunks 9..12 and 13..16 are sent, 8 bytes in
    all. The four callbacks that follow return 13..16, then the old bytes
    1..4 and 5..8, and 9..12 last: the bytes sent do not come out first nor in
    order. *)
Theorem C4_idle_callback_breaks_round_trip :
  (ca <- ingest 16 (ca_data_zero 16) bytes_1_8 ;;
   '(ca', blks) <- feeds 16 2 4 junk4 ca ;;
   Done (source_buffer_start ca', source_buffer_end ca',
         data_in_buffer 16 ca', blks))
  = Done (8, 8, 0, [[1; 2; 3; 4]; [5; 6; 7; 8]])
  /\ (ca <- ingest 16 (ca_data_zero 16) bytes_1_8 ;;
      '(ca1, _) <- feeds 16 3 4 junk4 ca ;;
      ca2 <- ingests 16 ca1 [[9; 10; 11; 12]; [13; 14; 15; 16]] ;;
      '(_, blks) <- feeds 16 4 4 junk4 ca2 ;;
      Done blks)
     = Done [[13; 14; 15; 16]; [1; 2; 3; 4]; [5; 6; 7; 8]; [9; 10; 11; 12]].
Proof. split; vm_compute; reflexivity. Qed.

(** ** C5 *)

(** C5, at a ring of 16 bytes that held 1..16 and was emptied by four feeds
    of 4 bytes: both cursors are 0, the diagnostics count 0 bytes, and the
    next callback copies 4 bytes, [1,2,3,4], and moves the read cursor to 4;
    no byte of the block is silence. *)
Theorem C5_empty_ring_is_read :
  (ca <- ingest 16 (ca_data_zero 16) bytes_1_16 ;;
   '(ca', _) <- feeds 16 4 4 junk4 ca ;; Done ca') = Done ring_drained
  /\ data_in_buffer 16 ring_drained = 0
  /\ audio_queue_output_callback 16 ring_drained (allocate_buffer 4 junk4)
     = Done ({| source_buffer := bytes_1_16;
                source_buffer_start := 4;
                source_buffer_end := 0 |},
             {| mAudioDataBytesCapacity := 4;
                mAudioData := [1; 2; 3; 4];
                mAudioDataByteSize := 4 |}).
Proof. repeat split; vm_compute; reflexivity. Qed.

(** ** C6 *)

(** C6 (as the code has it): the zeroed ring has the read cursor in
    [0, C) and the write cursor in [0, C], and every completed ingest and
    every completed callback keeps them there. An ingest does not move the
    read cursor; an empty ingest leaves the write cursor where it is; an
    ingest of [n > 0] bytes leaves it at [(w + n - 1) mod C + 1], [w] being the
    old write cursor read as 0 when it was [C]: above 0, and at [C] exactly
    when the write ends at the end of the storage. A callback leaves the write
    cursor where it is, unless it was [C] and the callback brings the read
    cursor to the end of the storage: then both cursors are reset to 0. *)
Theorem C6_cursor_ranges (C : Z) :
  0 < C < 2 ^ 32 ->
  ring_inv C (ca_data_zero C)
  /\ (forall (ca : coreaudio_output_data) (bytes : list Z),
         ring_inv C ca -> len bytes < 2 ^ 32 ->
         exists ca',
           ingest C ca bytes = Done ca'
           /\ source_buffer_start ca' = source_buffer_start ca
           /\ 0 <= source_buffer_start ca' < C
           /\ 0 <= source_buffer_end ca' <= C
           /\ ring_inv C ca'
           /\ source_buffer_end ca'
              = (if len bytes =? 0 then source_buffer_end ca
                 else (wrapped C (source_buffer_end ca) + len bytes - 1)
                      mod C + 1)
           /\ (0 < len bytes ->
               0 < source_buffer_end ca'
               /\ (source_buffer_end ca' = C <->
                   (wrapped C (source_buffer_end ca) + len bytes) mod C = 0)))
  /\ (forall (ca : coreaudio_output_data) (buffer : AudioQueueBuffer),
         ring_inv C ca ->
         0 <= mAudioDataBytesCapacity buffer < 2 ^ 32 ->
         len (mAudioData buffer) = mAudioDataBytesCapacity buffer ->
         exists ca' buffer',
           audio_queue_output_callback C ca buffer = Done (ca', buffer')
           /\ 0 <= source_buffer_start ca' < C
           /\ 0 <= source_buffer_end ca' <= C
           /\ ring_inv C ca'
           /\ source_buffer_end ca'
              = (if (source_buffer_end ca =? C)
                    && (C - source_buffer_start ca
                        <=? mAudioDataBytesCapacity buffer)
                 then 0 else source_buffer_end ca)
           /\ (source_buffer_end ca' <> source_buffer_end ca ->
               source_buffer_end ca = C
               /\ C - source_buffer_start ca <= mAudioDataBytesCapacity buffer
               /\ source_buffer_end ca' = 0
               /\ source_buffer_start ca' = 0)).
Proof.
  intros HC. split; [| split].
  - unfold ring_inv, ca_data_zero, len.
    cbn [source_buffer source_buffer_start source_buffer_end].
    rewrite repeat_length. lia.
  - intros ca bytes Hinv H32.
    destruct (ingest_spec C ca bytes Hinv H32)
      as (ca' & Hrun & Hinv' & Hst & _ & Hend).
    exists ca'. pose proof Hinv' as (_ & _ & Hs' & He').
    pose proof Hinv as (_ & _ & _ & He).
    split; [exact Hrun |]. split; [exact Hst |].
    split; [lia |]. split; [lia |]. split; [exact Hinv' |].
    split; [exact Hend |].
    intros Hpos. rewrite Hend.
    replace (len bytes =? 0) with false by (symmetry; apply Z.eqb_neq; lia).
    apply end_after_write; [lia | apply wrapped_range; lia | exact Hpos].
  - intros ca buffer Hinv HB Hd.
    rewrite callback_spec by assumption. cbv zeta.
    eexists; eexists. split; [reflexivity |].
    pose proof (ring_inv_fed C (mAudioDataBytesCapacity buffer) ca Hinv
                  (proj1 HB)) as Hinv'.
    unfold fed in Hinv'. pose proof Hinv' as (_ & _ & Hs' & He').
    cbn [source_buffer_start source_buffer_end] in Hs', He'.
    cbn [source_buffer_start source_buffer_end].
    split; [exact Hs' |]. split; [exact He' |]. split; [exact Hinv' |].
    split; [reflexivity |].
    pose proof Hinv as (_ & _ & Hst & He).
    unfold readable.
    destruct (Z.eqb_spec (source_buffer_end ca) C) as [Hfull | Hnot];
      destruct (Z.leb_spec (C - source_buffer_start ca)
                  (mAudioDataBytesCapacity buffer)) as [Hreach | Hshort];
      cbn [andb]; intros Hmoved; try contradiction.
    split; [exact Hfull |]. split; [exact Hreach |]. split; [reflexivity |].
    replace (source_buffer_start ca <? source_buffer_end ca) with true
      by (symmetry; apply Z.ltb_lt; lia).
    rewrite Z.min_r by lia.
    replace (source_buffer_start ca
             + (source_buffer_end ca - source_buffer_start ca) <? C)
      with false by (symmetry; apply Z.ltb_ge; lia).
    lia.
Qed.

(** The zeroed ring of 16 bytes and one ingest of 16 bytes, which ends at
    the end of the storage. *)
Lemma C6_cursor_ranges_witness :
  ring_inv 16 (ca_data_zero 16)
  /\ (exists ca',
         ingest 16 (ca_data_zero 16) bytes_1_16 = Done ca'
         /\ source_buffer_start ca' = 0
         /\ 0 <= source_buffer_start ca' < 16
         /\ 0 <= source_buffer_end ca' <= 16
         /\ ring_inv 16 ca'
         /\ source_buffer_end ca' = 16).
Proof.
  assert (H16 : 0 < 16 < 2 ^ 32) by lia.
  destruct (C6_cursor_ranges 16 H16) as (Hzero & Hingest & _).
  split; [exact Hzero |].
  destruct (Hingest (ca_data_zero 16) bytes_1_16 Hzero)
    as (ca' & Hrun & Hst & Hs' & He' & Hinv' & Hend & _).
  - vm_compute. reflexivity.
  - exists ca'. repeat (split; [assumption |]). exact Hend.
Defined.

(** C6, as worded, fails for the write cursor: 16 bytes sent to the zeroed
    ring of 16 bytes leave it at 16, and a feed of 4 bytes leaves it there. *)
Lemma C6_counterexample :
  ingest 16 (ca_data_zero 16) bytes_1_16 = Done ring_full
  /\ ~ cursors_below 16 ring_full
  /\ exists ca' blk,
       feed 16 4 junk4 ring_full = Done (ca', blk)
       /\ ~ cursors_below 16 ca'.
Proof.
  split; [vm_compute; reflexivity |]. split.
  - unfold cursors_below, ring_full. cbn. lia.
  - eexists; eexists. split; [vm_compute; reflexivity |].
    unfold cursors_below. cbn. lia.
Qed.

(** ** C7 *)

(** C7, at the zeroed ring of 16 bytes after the 6 bytes 1..6, with six
    feeds of 4 bytes and no ingest in between: the second block is the
    underrun, the fifth and the sixth replay 1..6. *)
Theorem C7_feeds_replay_old_bytes :
  (ca <- ingest 16 (ca_data_zero 16) bytes_1_6 ;;
   '(_, blks) <- feeds 16 6 4 junk4 ca ;; Done blks)
  = Done [[1; 2; 3; 4]; [5; 6; 0; 0]; [0; 0; 0; 0]; [0; 0; 0; 0];
          [0; 0; 1; 2]; [3; 4; 5; 6]].
Proof. vm_compute. reflexivity. Qed.

(** ** C8 *)

(** C8: for a chunk of positive size the loop of the send ends within
    [size / C + 2] iterations (and within [size] iterations); every iteration
    copies between 1 and [C] bytes, the copies add up to the size, the whole
    chunk is stored around the ring from the write cursor on, and the send
    returns 0. *)
Theorem C8_send_loop_terminates (C : Z) (ca : coreaudio_output_data)
  (data : receiver_data_t) :
  ring_inv C ca ->
  0 < audio_size data <= len (audio data) ->
  audio_size data < 2 ^ 32 ->
  exists (fuel : nat) (ca' : coreaudio_output_data) (segs : list Z),
    Z.of_nat fuel <= audio_size data / C + 2
    /\ send_loop C fuel ca data 0 [] = Done (ca', segs)
    /\ coreaudio_output_send C fuel ca data = Done (ca', 0)
    /\ Forall (fun x => 0 < x <= C) segs
    /\ sum_sizes segs = audio_size data
    /\ len segs <= audio_size data / C + 2
    /\ len segs <= audio_size data
    /\ written C (source_buffer ca) (wrapped C (source_buffer_end ca))
         (firstn (Z.to_nat (audio_size data)) (audio data))
         (source_buffer ca').
Proof.
  intros Hinv Hsize H32.
  pose proof Hinv as (HC & _ & _ & He).
  pose proof (wrapped_range C _ (proj1 HC) He) as Hw.
  set (n := audio_size data) in *.
  pose proof (Z.div_mod n C) as Hdm.
  pose proof (Z.mod_pos_bound n C (proj1 HC)) as Hmod.
  assert (Hq : 0 <= n / C) by (apply Z.div_pos; lia).
  destruct (send_loop_spec C data) with
    (fuel := Z.to_nat (n / C + 2)) (ca := ca) (copied := 0) (segs := @nil Z)
    as (ca' & segs & Hrun & _ & _ & Hwr & _ & Hall & Hsum & Hcnt).
  - fold n. lia.
  - exact H32.
  - exact Hinv.
  - fold n. lia.
  - fold n. rewrite Z2Nat.id by lia. nia.
  - fold n in Hwr, Hsum, Hcnt. rewrite Z.sub_0_r in *.
    cbn [app Z.to_nat skipn] in *.
    exists (Z.to_nat (n / C + 2)), ca', segs.
    split; [lia |]. split; [exact Hrun |].
    split; [unfold coreaudio_output_send; rewrite Hrun; reflexivity |].
    split; [exact Hall |]. split; [exact Hsum |].
    split; [nia |].
    split; [rewrite <- Hsum; apply (len_le_sum_sizes C); exact Hall |].
    exact Hwr.
Qed.

(** 20 bytes into a ring of 16: two iterations, of 16 and of 4 bytes. *)
Lemma C8_send_loop_terminates_witness :
  exists (fuel : nat) (ca' : coreaudio_output_data) (segs : list Z),
    Z.of_nat fuel <= 20 / 16 + 2
    /\ send_loop 16 fuel ring_drained (chunk_of bytes_1_20) 0 []
       = Done (ca', segs)
    /\ coreaudio_output_send 16 fuel ring_drained (chunk_of bytes_1_20)
       = Done (ca', 0)
    /\ Forall (fun x => 0 < x <= 16) segs
    /\ sum_sizes segs = 20
    /\ len segs <= 20 / 16 + 2
    /\ len segs <= 20
    /\ written 16 bytes_1_16 0 bytes_1_20 (source_buffer ca').
Proof.
  apply (C8_send_loop_terminates 16 ring_drained (chunk_of bytes_1_20)).
  - unfold ring_inv, len. cbn. lia.
  - unfold len. cbn. lia.
  - vm_compute. reflexivity.
Defined.

(** ** C9 *)

(** C9: a chunk of size 0 leaves the ring and both cursors as they are and
    the send returns 0; and 0 is what the send returns on every input. *)
Theorem C9_zero_length_noop :
  (forall (C : Z) (fuel : nat) (ca : coreaudio_output_data) (bytes : list Z),
      coreaudio_output_send C fuel ca {| audio := bytes; audio_size := 0 |}
      = Done (ca, 0))
  /\ (forall (C : Z) (fuel : nat) (ca : coreaudio_output_data)
             (data : receiver_data_t),
         match coreaudio_output_send C fuel ca data with
         | Done (_, r) => r = 0
         | _ => True
         end).
Proof.
  split.
  - intros C fuel ca bytes. unfold coreaudio_output_send.
    destruct fuel; reflexivity.
  - intros C fuel ca data. unfold coreaudio_output_send.
    destruct (send_loop C fuel ca data 0 []) as [[ca' segs] | |];
      cbn [bind]; trivial.
Qed.

(** ** C10 *)

(** C10: when both cursors are equal, the callback takes the ring for full:
    it copies [min B C] bytes from the read cursor on, around the ring,
    whatever they are, moves the read cursor by that many, and only pads the
    block beyond them. *)
Theorem C10_equal_cursors_read_as_full (C : Z) (ca : coreaudio_output_data)
  (buffer : AudioQueueBuffer) :
  ring_inv C ca ->
  source_buffer_start ca = source_buffer_end ca ->
  0 <= mAudioDataBytesCapacity buffer < 2 ^ 32 ->
  len (mAudioData buffer) = mAudioDataBytesCapacity buffer ->
  let B := mAudioDataBytesCapacity buffer in
  audio_queue_output_callback C ca buffer
  = Done ({| source_buffer := source_buffer ca;
             source_buffer_start := (source_buffer_start ca + Z.min B C) mod C;
             source_buffer_end := source_buffer_end ca |},
          {| mAudioDataBytesCapacity := B;
             mAudioData :=
               cyc_read C (source_buffer ca) (source_buffer_start ca)
                        (Z.min B C)
               ++ repeat 0 (Z.to_nat (B - Z.min B C));
             mAudioDataByteSize := B |}).
Proof.
  intros Hinv Heq HB Hd B. rewrite callback_spec by assumption. cbv zeta.
  fold B. destruct Hinv as (HC & _ & Hst & He).
  assert (Hr : readable C ca = C).
  { unfold readable. rewrite <- Heq, Z.ltb_irrefl. lia. }
  rewrite Hr.
  replace (source_buffer_end ca =? C) with false
    by (symmetry; apply Z.eqb_neq; lia).
  cbn [andb]. do 3 f_equal.
  destruct (Z.ltb_spec (source_buffer_start ca + Z.min B C) C).
  - symmetry. apply Z.mod_small. lia.
  - transitivity ((source_buffer_start ca + Z.min B C - C + 1 * C) mod C);
      [| f_equal; lia].
    rewrite Z_mod_plus_full. symmetry. apply Z.mod_small. lia.
Qed.

(** Both cursors at 14 in a ring of 16 holding 1..16, block of 4. *)
Lemma C10_equal_cursors_witness :
  audio_queue_output_callback 16
    {| source_buffer := bytes_1_16;
       source_buffer_start := 14;
       source_buffer_end := 14 |}
    (allocate_buffer 4 junk4)
  = Done ({| source_buffer := bytes_1_16;
             source_buffer_start := 2;
             source_buffer_end := 14 |},
          {| mAudioDataBytesCapacity := 4;
             mAudioData := [15; 16; 1; 2];
             mAudioDataByteSize := 4 |}).
Proof.
  apply (C10_equal_cursors_read_as_full 16
           {| source_buffer := bytes_1_16;
              source_buffer_start := 14;
              source_buffer_end := 14 |}
           (allocate_buffer 4 junk4)).
  - unfold ring_inv, len. cbn. lia.
  - reflexivity.
  - cbn. lia.
  - reflexivity.
Defined.

(** * Further properties of the code *)

(** ** The ring as a queue *)

Section Queue.

Variable C : Z.

Lemma holds_write_pos (ca : coreaudio_output_data) (q : list Z) :
  holds C ca q ->
  wrapped C (source_buffer_end ca) = (source_buffer_start ca + len q) mod C.
Proof.
  intros ((HC & _ & Hst & He) & Hq & Hcur & _).
  unfold wrapped. destruct (Z.eqb_spec (len q) 0) as [Hz | Hnz].
  - rewrite Hz, Z.add_0_r, <- Hcur.
    replace (source_buffer_start ca =? C) with false
      by (symmetry; apply Z.eqb_neq; lia).
    symmetry. apply Z.mod_small. lia.
  - revert Hcur. unfold readable.
    destruct (Z.ltb_spec (source_buffer_start ca) (source_buffer_end ca));
      intros Hcur.
    + replace (source_buffer_start ca + len q) with (source_buffer_end ca)
        by lia.
      destruct (Z.eqb_spec (source_buffer_end ca) C) as [-> | Hne].
      * symmetry. apply Z_mod_same_full.
      * symmetry. apply Z.mod_small. lia.
    + replace (source_buffer_end ca =? C) with false
        by (symmetry; apply Z.eqb_neq; lia).
      transitivity ((source_buffer_end ca + 1 * C) mod C); [| f_equal; lia].
      rewrite Z_mod_plus_full. symmetry. apply Z.mod_small. lia.
Qed.

Lemma holds_nth (ca : coreaudio_output_data) (q : list Z) (i : Z) :
  holds C ca q -> 0 <= i < len q ->
  get (source_buffer ca) ((source_buffer_start ca + i) mod C) = get q i.
Proof.
  intros (_ & _ & _ & Hread) Hi.
  unfold get at 2. rewrite <- Hread.
  rewrite cyc_read_nth by (unfold len in *; lia).
  rewrite Z2Nat.id by lia. reflexivity.
Qed.

(** A send that fits appends to the queue. *)
Lemma holds_ingest (ca : coreaudio_output_data) (q bytes : list Z) :
  holds C ca q -> len q + len bytes <= C ->
  exists ca', ingest C ca bytes = Done ca' /\ holds C ca' (q ++ bytes).
Proof.
  intros Hh Hfit.
  pose proof (holds_write_pos ca q Hh) as Hpos.
  pose proof Hh as (Hinv & Hq & Hcur & Hread).
  pose proof Hinv as (HC & Hs & Hst & He).
  pose proof (len_nonneg q) as Hq0. pose proof (len_nonneg bytes) as Hb0.
  destruct (ingest_spec C ca bytes Hinv) as (ca' & Hrun & Hinv' & Hst' & Hwr & Hend);
    [lia |].
  exists ca'. split; [exact Hrun |].
  destruct Hwr as (Hl & W & U).
  unfold holds. rewrite len_app.
  split; [exact Hinv' |]. split; [lia |]. split.
  - destruct (Z.eqb_spec (len bytes) 0) as [Hbz | Hbnz].
    + rewrite Hbz, Z.add_0_r. unfold readable. rewrite Hst', Hend. exact Hcur.
    + replace (len q + len bytes =? 0) with false
        by (symmetry; apply Z.eqb_neq; lia).
      apply readable_after_write with (p := source_buffer_start ca);
        [lia | lia | lia | exact Hst' |].
      rewrite Hend, Hpos.
      replace ((source_buffer_start ca + len q) mod C + len bytes - 1)
        with ((source_buffer_start ca + len q) mod C + (len bytes - 1)) by lia.
      rewrite Zplus_mod_idemp_l. do 2 f_equal. lia.
  - apply nth_ext with (d := 0) (d' := 0).
    + rewrite cyc_read_length, length_app. unfold len in *. lia.
    + intros i Hi. rewrite cyc_read_length in Hi.
      rewrite cyc_read_nth by exact Hi. rewrite Hst'.
      destruct (Z.lt_ge_cases (Z.of_nat i) (len q)) as [Hold | Hnew].
      * rewrite app_nth1 by (unfold len in *; lia).
        rewrite U.
        -- rewrite (holds_nth ca q (Z.of_nat i) Hh) by lia.
           unfold get. rewrite Nat2Z.id. reflexivity.
        -- apply Z.mod_pos_bound. lia.
        -- intros j Hj. rewrite Hpos, Zplus_mod_idemp_l.
           replace (source_buffer_start ca + len q + j)
             with (source_buffer_start ca + Z.of_nat i
                   + (len q + j - Z.of_nat i)) by lia.
           apply mod_apart; lia.
      * rewrite app_nth2 by (unfold len in *; lia).
        rewrite <- (Nat2Z.id (i - length q)).
        change (nth (Z.to_nat (Z.of_nat (i - length q))) bytes 0)
          with (get bytes (Z.of_nat (i - length q))).
        rewrite <- W by (unfold len in *; lia).
        rewrite Hpos, Zplus_mod_idemp_l. do 2 f_equal. unfold len in *. lia.
Qed.

(** A callback on a ring that holds bytes takes them from the front. *)
Lemma holds_feed (ca : coreaudio_output_data) (q : list Z) (B : Z)
  (junk : list Z) :
  holds C ca q -> q <> [] -> 0 <= B < 2 ^ 32 -> len junk = B ->
  feed C B junk ca = Done (fed C B ca, take_block B q)
  /\ holds C (fed C B ca) (skipn (Z.to_nat B) q)
  /\ (source_buffer_end ca <> C ->
      source_buffer_end (fed C B ca) = source_buffer_end ca).
Proof.
  intros Hh Hne HB Hj.
  pose proof Hh as (Hinv & Hq & Hcur & Hread).
  pose proof Hinv as (HC & Hs & Hst & He).
  assert (Hpos : 0 < len q).
  { destruct q; [congruence | rewrite len_cons; pose proof (len_nonneg q); lia]. }
  replace (len q =? 0) with false in Hcur by (symmetry; apply Z.eqb_neq; lia).
  split; [| split].
  - rewrite feed_spec by assumption. do 2 f_equal.
    unfold played, take_block. rewrite Hcur.
    f_equal; [| f_equal; unfold len in *; lia].
    rewrite <- Hread at 2.
    destruct (Z.le_gt_cases B (len q)) as [Hle | Hgt].
    + rewrite Z.min_l by lia. symmetry. apply cyc_read_firstn. lia.
    + rewrite Z.min_r by lia. symmetry. apply firstn_all2.
      rewrite cyc_read_length. lia.
  - unfold holds.
    assert (Hlen : len (skipn (Z.to_nat B) q) = Z.max 0 (len q - B)).
    { unfold len. rewrite length_skipn. lia. }
    rewrite Hlen.
    split; [apply ring_inv_fed; [exact Hinv | lia] |]. split; [lia |].
    destruct (Z.lt_ge_cases B (len q)) as [Hlt | Hge].
    + destruct (readable_fed C B ca Hinv) as (Hrf & Hsf); [lia |].
      rewrite Z.max_r by lia.
      replace (len q - B =? 0) with false by (symmetry; apply Z.eqb_neq; lia).
      split; [lia |].
      rewrite Hsf. replace (source_buffer (fed C B ca)) with (source_buffer ca)
        by reflexivity.
      rewrite <- cyc_read_skipn by lia. rewrite Hread. reflexivity.
    + rewrite Z.max_l by lia. cbn [Z.eqb].
      split.
      * revert Hcur. unfold fed, readable.
        cbn [source_buffer_start source_buffer_end].
        destruct (Z.ltb_spec (source_buffer_start ca) (source_buffer_end ca));
          intros Hcur; rewrite Z.min_r by lia;
          repeat match goal with
          | |- context [Z.ltb ?a ?b] => destruct (Z.ltb_spec a b)
          | |- context [Z.leb ?a ?b] => destruct (Z.leb_spec a b)
          | |- context [Z.eqb ?a ?b] => destruct (Z.eqb_spec a b)
          end; cbn [andb]; lia.
      * rewrite skipn_all2 by (unfold len in *; lia). reflexivity.
  - intros Hnc. unfold fed. cbn [source_buffer_end].
    replace (source_buffer_end ca =? C) with false
      by (symmetry; apply Z.eqb_neq; lia).
    reflexivity.
Qed.

End Queue.

Lemma holds_drained (C : Z) (ca : coreaudio_output_data) :
  ring_inv C ca -> source_buffer_start ca = source_buffer_end ca ->
  holds C ca [].
Proof.
  intros Hinv Heq. unfold holds. change (len (@nil Z)) with 0.
  pose proof Hinv as (HC & _). cbn [Z.eqb].
  split; [exact Hinv |]. split; [lia |]. split; [exact Heq | reflexivity].
Qed.

Lemma run_feeds (C B : Z) (junk : list Z) (k : nat) :
  forall ca, run C ca (repeat (Play B junk) k) = feeds C k B junk ca.
Proof.
  induction k as [| k IH]; intros ca; cbn [repeat run feeds].
  - reflexivity.
  - destruct (feed C B junk ca) as [[ca1 blk] | |]; cbn [bind];
      [rewrite IH | |]; reflexivity.
Qed.

(** The stored bytes are fixed by what was written. *)
Lemma written_unique (C : Z) (s s1 s2 chunk : list Z) (p : Z) :
  0 < C -> len s = C ->
  written C s p chunk s1 -> written C s p chunk s2 -> s1 = s2.
Proof.
  intros HC Hs (L1 & W1 & U1) (L2 & W2 & U2).
  pose proof (len_nonneg chunk) as Hn.
  apply nth_ext with (d := 0) (d' := 0); [congruence |].
  intros i Hi.
  assert (Hiz : 0 <= Z.of_nat i < C) by (unfold len in *; lia).
  change (nth i s1 0) with (nth i s1 0).
  rewrite <- (Nat2Z.id i).
  change (get s1 (Z.of_nat i) = get s2 (Z.of_nat i)).
  set (iz := Z.of_nat i) in *.
  pose proof (Z.mod_pos_bound (iz - p) C HC) as Hj0.
  set (j0 := (iz - p) mod C) in *.
  destruct (Z.lt_ge_cases j0 (len chunk)) as [Hhit | Hmiss].
  - pose proof (Z.div_mod (len chunk - 1 - j0) C) as Hdm.
    pose proof (Z.mod_pos_bound (len chunk - 1 - j0) C HC) as Hr.
    assert (Hk : 0 <= (len chunk - 1 - j0) / C) by (apply Z.div_pos; lia).
    set (k := (len chunk - 1 - j0) / C) in *.
    assert (Hat : (p + (j0 + k * C)) mod C = iz).
    { replace (p + (j0 + k * C)) with (p + j0 + k * C) by lia.
      rewrite Z_mod_plus_full. subst j0.
      rewrite Zplus_mod_idemp_r.
      replace (p + (iz - p)) with iz by lia. apply Z.mod_small. lia. }
    rewrite <- Hat. rewrite W1, W2 by nia. reflexivity.
  - assert (Hnone : forall j, 0 <= j < len chunk -> (p + j) mod C <> iz).
    { intros j Hj Heq.
      assert (Hjm : j0 = j mod C).
      { subst j0. rewrite <- Heq, Zminus_mod_idemp_l. f_equal. lia. }
      pose proof (Z.mod_le j C (proj1 Hj) HC). lia. }
    rewrite U1, U2 by assumption. reflexivity.
Qed.

Lemma cyc_read_zero (C n : Z) (p m : Z) :
  cyc_read C (repeat 0 (Z.to_nat n)) p m = repeat 0 (Z.to_nat m).
Proof.
  apply nth_ext with (d := 0) (d' := 0).
  - rewrite cyc_read_length, repeat_length. reflexivity.
  - intros i Hi. rewrite cyc_read_length in Hi.
    rewrite cyc_read_nth by exact Hi.
    unfold get. rewrite !nth_repeat. reflexivity.
Qed.

(** Feeds that stay within the queue take it block by block. *)
Lemma feeds_holds (C B : Z) (junk : list Z) (k : nat) :
  forall (ca : coreaudio_output_data) (q : list Z),
  holds C ca q -> 0 < B < 2 ^ 32 -> len junk = B ->
  Z.of_nat k * B <= len q ->
  exists ca' blks,
    feeds C k B junk ca = Done (ca', blks)
    /\ concat blks = firstn (Z.to_nat (Z.of_nat k * B)) q
    /\ holds C ca' (skipn (Z.to_nat (Z.of_nat k * B)) q)
    /\ source_buffer ca' = source_buffer ca
    /\ (source_buffer_end ca <> C ->
        source_buffer_end ca' = source_buffer_end ca).
Proof.
  induction k as [| k IH]; intros ca q Hh HB Hj Hk.
  - exists ca, []. cbn [feeds Z.of_nat Z.mul Z.to_nat firstn skipn concat].
    split; [reflexivity |]. split; [reflexivity |]. split; [exact Hh |].
    split; reflexivity.
  - assert (Hne : q <> []).
    { intros ->. change (len (@nil Z)) with 0 in Hk. nia. }
    destruct (holds_feed C ca q B junk Hh Hne) as (Hfeed & Hh1 & He1);
      [lia | exact Hj |].
    assert (Hl1 : len (skipn (Z.to_nat B) q) = len q - B).
    { unfold len. rewrite length_skipn. unfold len in Hk. nia. }
    destruct (IH (fed C B ca) (skipn (Z.to_nat B) q) Hh1 HB Hj)
      as (ca' & blks & Hrun & Hcat & Hh' & Hsb & He'); [rewrite Hl1; nia |].
    exists ca', (take_block B q :: blks).
    cbn [feeds]. rewrite Hfeed. cbn [bind]. rewrite Hrun. cbn [bind].
    split; [reflexivity |].
    replace (Z.to_nat (Z.of_nat (S k) * B))
      with (Z.to_nat (Z.of_nat k * B) + Z.to_nat B)%nat in * by nia.
    split; [| split; [| split]].
    + cbn [concat]. rewrite Hcat. unfold take_block.
      replace (Z.to_nat B - length q)%nat with O by (unfold len in Hk; nia).
      cbn [repeat]. rewrite app_nil_r.
      rewrite <- (firstn_skipn (Z.to_nat B)
                    (firstn (Z.to_nat (Z.of_nat k * B) + Z.to_nat B) q)).
      rewrite firstn_firstn, skipn_firstn_comm.
      rewrite Nat.min_l by lia. do 2 f_equal. lia.
    + rewrite <- skipn_skipn. exact Hh'.
    + rewrite Hsb. reflexivity.
    + intros Hnc. rewrite He' by (rewrite He1; assumption). apply He1, Hnc.
Qed.

Lemma init_buffers_spec (C size : Z) (calls : audio_queue_calls) :
  0 < C < 2 ^ 32 -> 0 <= size < 2 ^ 32 ->
  (forall j, len (allocate_content calls j) = size) ->
  forall (count i : nat) (ca : coreaudio_output_data)
         (enq : list AudioQueueBuffer),
  source_buffer ca = repeat 0 (Z.to_nat C) ->
  0 <= source_buffer_start ca < C ->
  source_buffer_end ca = 0 ->
  exists ca' enq' allocated,
    init_buffers C size calls count i ca enq = Done (ca', enq ++ enq', allocated)
    /\ source_buffer ca' = repeat 0 (Z.to_nat C)
    /\ 0 <= source_buffer_start ca' < C
    /\ source_buffer_end ca' = 0
    /\ Forall (silent size) enq'
    /\ (forall j, (i <= j < i + length enq')%nat -> allocate_status calls j = 0)
    /\ (if allocated then length enq' = count
        else (length enq' < count)%nat
             /\ allocate_status calls (i + length enq') <> 0)
    /\ (allocated = true ->
        source_buffer_start ca + Z.of_nat count * size < C ->
        source_buffer_start ca'
        = source_buffer_start ca + Z.of_nat count * size).
Proof.
  intros HC Hsize Hjunk.
  induction count as [| count IH]; intros i ca enq Hsb Hst He.
  - exists ca, [], true. cbn [init_buffers length]. rewrite app_nil_r.
    repeat split; try assumption; try lia. constructor.
  - cbn [init_buffers].
    destruct (Z.eqb_spec (allocate_status calls i) 0) as [Hok | Hfail];
      cbn [negb].
    + assert (Hinv : ring_inv C ca).
      { unfold ring_inv, len. rewrite Hsb, repeat_length, He. lia. }
      pose proof (readable_range C ca Hinv) as Hr.
      rewrite callback_spec
        by (cbn [allocate_buffer mAudioDataBytesCapacity mAudioData];
            auto).
      cbn [allocate_buffer mAudioDataBytesCapacity mAudioData bind].
      cbv zeta.
      pose proof (ring_inv_fed C size ca Hinv (proj1 Hsize)) as (_ & _ & Hst1 & _).
      unfold fed in Hst1. cbn [source_buffer_start] in Hst1.
      match goal with
      | |- context [init_buffers C size calls count (S i) ?c (enq ++ [?b])] =>
          destruct (IH (S i) c (enq ++ [b]))
            as (ca' & enq' & ok & Hrun & Hsb' & Hst' & He' & Hsil & Hall & Hend
                & Hcur);
          [ exact Hsb | exact Hst1
          | cbn [source_buffer_end]; rewrite He;
            replace (0 =? C) with false by (symmetry; apply Z.eqb_neq; lia);
            reflexivity
          | exists ca', (b :: enq'), ok ]
      end.
      rewrite Hrun, <- app_assoc. cbn [app length].
      split; [reflexivity |]. split; [exact Hsb' |]. split; [exact Hst' |].
      split; [exact He' |]. split; [| split].
      * constructor; [| exact Hsil].
        unfold silent. cbn [mAudioDataBytesCapacity mAudioData mAudioDataByteSize].
        split; [reflexivity |]. split; [| reflexivity].
        rewrite Hsb, cyc_read_zero, <- repeat_app. f_equal. lia.
      * intros j Hj. destruct (Nat.eq_dec j i) as [-> | Hne];
          [exact Hok | apply Hall; lia].
      * split.
        -- destruct ok.
           ++ lia.
           ++ replace (i + S (length enq'))%nat with (S i + length enq')%nat
                by lia.
              split; [lia | apply Hend].
        -- intros Hok' Hroom. rewrite Hcur; cbn [source_buffer_start].
           ++ unfold readable. rewrite He.
              replace (source_buffer_start ca <? 0) with false
                by (symmetry; apply Z.ltb_ge; lia).
              rewrite Z.min_l by nia.
              replace (source_buffer_start ca + size <? C) with true
                by (symmetry; apply Z.ltb_lt; nia).
              lia.
           ++ exact Hok'.
           ++ unfold readable. rewrite He.
              replace (source_buffer_start ca <? 0) with false
                by (symmetry; apply Z.ltb_ge; lia).
              rewrite Z.min_l by nia.
              replace (source_buffer_start ca + size <? C) with true
                by (symmetry; apply Z.ltb_lt; nia).
              nia.
    + exists ca, [], false. rewrite app_nil_r. cbn [length].
      rewrite Nat.add_0_r.
      repeat split; try assumption; try lia; try discriminate. constructor.
Qed.

(** ** X1 *)

(** X1: as long as the calls never put more than [C] bytes in the ring and
    no callback runs on the empty ring, sends and callbacks in any order play
    exactly the blocks an unbounded queue of bytes would give, across every
    wrap of the two cursors, and the ring is left holding the queue's rest. *)
Theorem X1_ring_is_a_queue (C : Z) (ops : list op) :
  forall (ca : coreaudio_output_data) (q : list Z),
  holds C ca q -> fits C q ops ->
  exists ca',
    run C ca ops = Done (ca', fifo q ops)
    /\ holds C ca' (queue_after q ops).
Proof.
  induction ops as [| [bytes | B junk] rest IH]; intros ca q Hh Hfits.
  - exists ca. split; [reflexivity | exact Hh].
  - destruct Hfits as (Hfit & Hrest).
    destruct (holds_ingest C ca q bytes Hh Hfit) as (ca1 & Hrun & Hh1).
    destruct (IH ca1 (q ++ bytes) Hh1 Hrest) as (ca' & Hrun' & Hh').
    exists ca'. cbn [run fifo queue_after]. rewrite Hrun. cbn [bind].
    split; assumption.
  - destruct Hfits as (Hne & HB & Hj & Hrest).
    destruct (holds_feed C ca q B junk Hh Hne HB Hj) as (Hfeed & Hh1 & _).
    destruct (IH (fed C B ca) (skipn (Z.to_nat B) q) Hh1 Hrest)
      as (ca' & Hrun' & Hh').
    exists ca'. cbn [run fifo queue_after]. rewrite Hfeed. cbn [bind].
    rewrite Hrun'. cbn [bind]. split; [reflexivity | exact Hh'].
Qed.

(** Ten bytes, a block of 4, ten more bytes that wrap, three blocks of 6. *)
Lemma X1_ring_is_a_queue_witness :
  exists ca',
    run 16 (ca_data_zero 16)
      [Send [1; 2; 3; 4; 5; 6; 7; 8; 9; 10]; Play 4 junk4;
       Send [11; 12; 13; 14; 15; 16; 17; 18; 19; 20];
       Play 6 (junk4 ++ [85; 85]); Play 6 (junk4 ++ [85; 85]);
       Play 6 (junk4 ++ [85; 85])]
    = Done (ca', [[1; 2; 3; 4]; [5; 6; 7; 8; 9; 10];
                  [11; 12; 13; 14; 15; 16]; [17; 18; 19; 20; 0; 0]])
    /\ holds 16 ca' [].
Proof.
  apply (X1_ring_is_a_queue 16
           [Send [1; 2; 3; 4; 5; 6; 7; 8; 9; 10]; Play 4 junk4;
            Send [11; 12; 13; 14; 15; 16; 17; 18; 19; 20];
            Play 6 (junk4 ++ [85; 85]); Play 6 (junk4 ++ [85; 85]);
            Play 6 (junk4 ++ [85; 85])]
           (ca_data_zero 16) []).
  - repeat split; vm_compute; solve [reflexivity | intro H; discriminate H].
  - repeat split; vm_compute; solve [reflexivity | intro H; discriminate H].
Defined.

(** ** X2 *)

(** X2: from a ring with its cursors in range, no sequence of sends and
    callbacks ever leaves the arrays: every call returns, the cursors stay in
    range, and every callback hands back a block of exactly the size asked
    for. *)
Theorem X2_calls_stay_in_bounds (C : Z) (ops : list op) :
  forall ca : coreaudio_output_data,
  ring_inv C ca -> Forall well_formed ops ->
  exists ca' blks,
    run C ca ops = Done (ca', blks)
    /\ ring_inv C ca'
    /\ map len blks = requested ops.
Proof.
  induction ops as [| [bytes | B junk] rest IH]; intros ca Hinv Hwf.
  - exists ca, []. split; [reflexivity |]. split; [exact Hinv | reflexivity].
  - inversion Hwf as [| o l Ho Hrest]; subst. cbn [well_formed] in Ho.
    destruct (ingest_spec C ca bytes Hinv Ho) as (ca1 & Hrun & Hinv1 & _).
    destruct (IH ca1 Hinv1 Hrest) as (ca' & blks & Hrun' & Hinv' & Hlen).
    exists ca', blks. cbn [run requested]. rewrite Hrun. cbn [bind].
    split; [exact Hrun' |]. split; assumption.
  - inversion Hwf as [| o l Ho Hrest]; subst. cbn [well_formed] in Ho.
    destruct Ho as (HB & Hj).
    destruct (IH (fed C B ca)) as (ca' & blks & Hrun' & Hinv' & Hlen);
      [apply ring_inv_fed; [exact Hinv | lia] | exact Hrest |].
    exists ca', (played C B ca :: blks). cbn [run requested].
    rewrite feed_spec by assumption. cbn [bind]. rewrite Hrun'. cbn [bind].
    split; [reflexivity |]. split; [exact Hinv' |].
    cbn [map]. rewrite Hlen, played_length by (try assumption; lia).
    reflexivity.
Qed.

(** 40 bytes into a ring of 16, a block of 20, an empty send, a block of 0. *)
Lemma X2_calls_stay_in_bounds_witness :
  exists ca' blks,
    run 16 ring_full
      [Send (bytes_1_20 ++ bytes_1_20); Play 20 (bytes_1_20); Send [];
       Play 0 []]
    = Done (ca', blks)
    /\ ring_inv 16 ca'
    /\ map len blks = [20; 0].
Proof.
  apply (X2_calls_stay_in_bounds 16
           [Send (bytes_1_20 ++ bytes_1_20); Play 20 (bytes_1_20); Send [];
            Play 0 []] ring_full).
  - repeat split; vm_compute; solve [reflexivity | intro H; discriminate H].
  - repeat constructor; vm_compute;
      solve [reflexivity | intro H; discriminate H].
Defined.

(** ** X3 *)

(** X3: sending chunks one after the other leaves the ring and both cursors
    exactly as one send of their concatenation does, overflow included. *)
Theorem X3_sends_compose (C : Z) (ca : coreaudio_output_data)
  (chunks : list (list Z)) :
  ring_inv C ca -> len (concat chunks) < 2 ^ 32 ->
  exists ca',
    ingests C ca chunks = Done ca'
    /\ ingest C ca (concat chunks) = Done ca'.
Proof.
  intros Hinv H32. pose proof Hinv as (HC & Hs & _).
  destruct (ingests_spec C chunks ca Hinv H32)
    as (ca1 & Hrun1 & _ & Hst1 & Hw1 & He1).
  destruct (ingest_spec C ca (concat chunks) Hinv H32)
    as (ca2 & Hrun2 & _ & Hst2 & Hw2 & He2).
  exists ca1. split; [exact Hrun1 |]. rewrite Hrun2. f_equal.
  destruct ca1 as [s1 st1 en1], ca2 as [s2 st2 en2].
  cbn [source_buffer source_buffer_start source_buffer_end] in *.
  f_equal; [| congruence | congruence].
  symmetry. apply (written_unique C (source_buffer ca) s1 s2 (concat chunks)
           (wrapped C (source_buffer_end ca))); try assumption; lia.
Qed.

(** 20 bytes into a ring of 16, in chunks of 6, 0, 10 and 4 bytes. *)
Lemma X3_sends_compose_witness :
  exists ca',
    ingests 16 ring_drained
      [bytes_1_6; []; [7; 8; 9; 10; 11; 12; 13; 14; 15; 16]; [17; 18; 19; 20]]
    = Done ca'
    /\ ingest 16 ring_drained bytes_1_20 = Done ca'.
Proof.
  apply (X3_sends_compose 16 ring_drained
           [bytes_1_6; []; [7; 8; 9; 10; 11; 12; 13; 14; 15; 16];
            [17; 18; 19; 20]]).
  - repeat split; vm_compute; solve [reflexivity | intro H; discriminate H].
  - vm_compute. reflexivity.
Defined.

(** ** X4 *)

(** X4: with both cursors equal and blocks whose size divides [C], the
    [C / B] callbacks that follow play the whole ring once, from the read
    cursor on, and leave the ring and both cursors exactly as they were: with
    no send in between the same [C] bytes are played again and again. *)
Theorem X4_equal_cursors_replay (C B : Z) (junk : list Z) (k : nat)
  (ca : coreaudio_output_data) :
  ring_inv C ca ->
  source_buffer_start ca = source_buffer_end ca ->
  0 < B < 2 ^ 32 -> len junk = B -> Z.of_nat k * B = C ->
  exists blks,
    feeds C k B junk ca = Done (ca, blks)
    /\ concat blks
       = cyc_read C (source_buffer ca) (source_buffer_start ca) C.
Proof.
  intros Hinv Heq HB Hj Hk. pose proof Hinv as (HC & Hs & Hst & He).
  set (q := cyc_read C (source_buffer ca) (source_buffer_start ca) C).
  assert (Hlq : len q = C).
  { unfold len, q. rewrite cyc_read_length. lia. }
  assert (Hh : holds C ca q).
  { unfold holds. rewrite Hlq.
    replace (C =? 0) with false by (symmetry; apply Z.eqb_neq; lia).
    split; [exact Hinv |]. split; [lia |]. split; [| reflexivity].
    unfold readable. rewrite <- Heq, Z.ltb_irrefl. lia. }
  destruct (feeds_holds C B junk k ca q Hh HB Hj)
    as (ca' & blks & Hrun & Hcat & Hh' & Hsb & He'); [lia |].
  rewrite Hk in *.
  assert (Hall : firstn (Z.to_nat C) q = q)
    by (apply firstn_all2; unfold len in Hlq; lia).
  assert (Hnone : skipn (Z.to_nat C) q = [])
    by (apply skipn_all2; unfold len in Hlq; lia).
  rewrite Hall in Hcat. rewrite Hnone in Hh'.
  destruct Hh' as (_ & _ & Hcur & _). change (len (@nil Z)) with 0 in Hcur.
  cbn [Z.eqb] in Hcur.
  exists blks. split; [| exact Hcat].
  rewrite Hrun. do 2 f_equal.
  destruct ca' as [s' st' en'], ca as [s st en].
  cbn [source_buffer source_buffer_start source_buffer_end] in *.
  rewrite He' in Hcur by lia. f_equal; [exact Hsb | lia | apply He'; lia].
Qed.

(** Both cursors at 6 in a ring of 16 holding 1..16: four blocks of 4. *)
Lemma X4_equal_cursors_replay_witness :
  exists blks,
    feeds 16 4 4 junk4
      {| source_buffer := bytes_1_16;
         source_buffer_start := 6;
         source_buffer_end := 6 |}
    = Done ({| source_buffer := bytes_1_16;
               source_buffer_start := 6;
               source_buffer_end := 6 |}, blks)
    /\ concat blks
       = [7; 8; 9; 10; 11; 12; 13; 14; 15; 16; 1; 2; 3; 4; 5; 6].
Proof.
  apply (X4_equal_cursors_replay 16 4 junk4 4
           {| source_buffer := bytes_1_16;
              source_buffer_start := 6;
              source_buffer_end := 6 |}).
  - repeat split; vm_compute; solve [reflexivity | intro H; discriminate H].
  - reflexivity.
  - lia.
  - reflexivity.
  - reflexivity.
Defined.

(** Calls that fit play what the queue gives. *)
Lemma run_fifo (C : Z) (ops : list op) :
  forall (ca : coreaudio_output_data) (q : list Z),
  holds C ca q -> fits C q ops ->
  exists ca',
    run C ca ops = Done (ca', fifo q ops)
    /\ holds C ca' (queue_after q ops).
Proof.
  induction ops as [| o rest IH]; intros ca q Hh Hfits.
  - exists ca. split; [reflexivity | exact Hh].
  - destruct o as [bytes | B junk]; cbn [run fifo queue_after].
    + destruct Hfits as (Hfit & Hrest).
      destruct (holds_ingest C ca q bytes Hh Hfit) as (ca1 & Hrun & Hh1).
      rewrite Hrun. cbn [bind]. apply IH; assumption.
    + destruct Hfits as (Hne & HB & Hj & Hrest).
      destruct (holds_feed C ca q B junk Hh Hne HB Hj) as (Hfeed & Hh1 & _).
      rewrite Hfeed. cbn [bind].
      destruct (IH _ _ Hh1 Hrest) as (ca' & Hrun' & Hh').
      exists ca'. rewrite Hrun'. cbn [bind]. split; [reflexivity | exact Hh'].
Qed.

(** ** Initialisation *)

Lemma init_status_spec (C size : Z) (count : nat) (calls : audio_queue_calls) :
  0 < C < 2 ^ 32 -> 0 <= size < 2 ^ 32 ->
  (forall j, len (allocate_content calls j) = size) ->
  exists ca enq rc,
    coreaudio_output_init_status C size count calls = Done (ca, enq, rc)
    /\ source_buffer ca = repeat 0 (Z.to_nat C)
    /\ source_buffer_end ca = 0
    /\ Forall (silent size) enq
    /\ (forall j, (j < length enq)%nat -> allocate_status calls j = 0)
    /\ ((rc = 1 /\ new_output_status calls <> 0 /\ enq = [])
        \/ (rc = 1 /\ new_output_status calls = 0
            /\ (length enq < count)%nat
            /\ allocate_status calls (length enq) <> 0)
        \/ (rc = 1 /\ new_output_status calls = 0
            /\ length enq = count /\ start_status calls <> 0)
        \/ (rc = 0 /\ new_output_status calls = 0
            /\ length enq = count /\ start_status calls = 0)).
Proof.
  intros HC Hsize Hjunk. unfold coreaudio_output_init_status. cbv zeta.
  assert (Hz : source_buffer (ca_data_zero C) = repeat 0 (Z.to_nat C))
    by reflexivity.
  destruct (Z.eqb_spec (new_output_status calls) 0) as [Hnew | Hnew];
    cbn [negb].
  - destruct (init_buffers_spec C size calls HC Hsize Hjunk count O
                (ca_data_zero C) [] Hz)
      as (ca & enq & ok & Hrun & Hsb & _ & He & Hsil & Hall & Hend & _);
      [cbn; lia | reflexivity |].
    cbn [app] in Hrun. rewrite Hrun. cbn [bind].
    exists ca, enq.
    destruct ok; cbn [negb].
    + destruct (Z.eqb_spec (start_status calls) 0) as [Hstart | Hstart];
        cbn [negb]; eexists; (split; [reflexivity |]);
        (split; [exact Hsb |]); (split; [exact He |]);
        (split; [exact Hsil |]); (split; [intros j Hj; apply Hall; lia |]).
      * right; right; right. tauto.
      * right; right; left. tauto.
    + eexists. split; [reflexivity |]. split; [exact Hsb |].
      split; [exact He |]. split; [exact Hsil |].
      split; [intros j Hj; apply Hall; lia |].
      right; left. cbn [Nat.add] in Hend. tauto.
  - exists (ca_data_zero C), [], 1.
    split; [reflexivity |]. split; [reflexivity |]. split; [reflexivity |].
    split; [constructor |]. split; [cbn [length]; intros; lia |].
    left. tauto.
Qed.

(** ** X5 *)

(** X5: the initialisation returns 0 or 1, and it returns 0 exactly when
    the output queue was created, every one of the [count] blocks was
    allocated and the queue was started. *)
Theorem X5_init_return_value (C size : Z) (count : nat)
  (calls : audio_queue_calls) :
  0 < C < 2 ^ 32 -> 0 <= size < 2 ^ 32 ->
  (forall j, len (allocate_content calls j) = size) ->
  exists ca enq rc,
    coreaudio_output_init_status C size count calls = Done (ca, enq, rc)
    /\ (rc = 0 \/ rc = 1)
    /\ (rc = 0 <->
        new_output_status calls = 0
        /\ (forall j, (j < count)%nat -> allocate_status calls j = 0)
        /\ start_status calls = 0).
Proof.
  intros HC Hsize Hjunk.
  destruct (init_status_spec C size count calls HC Hsize Hjunk)
    as (ca & enq & rc & Hrun & _ & _ & _ & Hall & Hcases).
  exists ca, enq, rc. split; [exact Hrun |].
  destruct Hcases as [(Hrc & Hnew & _) | [(Hrc & Hnew & Hlt & Hbad)
                     | [(Hrc & Hnew & Hlen & Hstart)
                     | (Hrc & Hnew & Hlen & Hstart)]]]; subst rc.
  - split; [right; reflexivity |]. split; [discriminate | tauto].
  - split; [right; reflexivity |]. split; [discriminate |].
    intros (_ & Hok & _). exfalso. apply Hbad, Hok, Hlt.
  - split; [right; reflexivity |]. split; [discriminate | tauto].
  - split; [left; reflexivity |]. split; [| reflexivity].
    intros _. split; [exact Hnew |]. split; [| exact Hstart].
    intros j Hj. apply Hall. lia.
Qed.

(** The second of two allocations fails. *)
Lemma X5_init_return_value_witness :
  exists ca enq rc,
    coreaudio_output_init_status 16 4 2
      {| new_output_status := 0;
         allocate_status := fun j => if Nat.eqb j 1 then -50 else 0;
         allocate_content := fun _ => junk4;
         start_status := 0 |}
    = Done (ca, enq, rc)
    /\ (rc = 0 \/ rc = 1)
    /\ (rc = 0 <->
        0 = 0
        /\ (forall j, (j < 2)%nat -> (if Nat.eqb j 1 then -50 else 0) = 0)
        /\ 0 = 0).
Proof.
  apply (X5_init_return_value 16 4 2
           {| new_output_status := 0;
              allocate_status := fun j => if Nat.eqb j 1 then -50 else 0;
              allocate_content := fun _ => junk4;
              start_status := 0 |}).
  - lia.
  - lia.
  - intros j. reflexivity.
Defined.

(** ** X6 *)

(** X6: whatever the device layer answers, the blocks the initialisation
    hands to the queue are the blocks allocated before the first failure, one
    callback each, every one a full block of silence; the ring is still all
    zeros with the write cursor at 0, and nothing is enqueued when the queue
    could not be created. *)
Theorem X6_init_prefills_silence (C size : Z) (count : nat)
  (calls : audio_queue_calls) :
  0 < C < 2 ^ 32 -> 0 <= size < 2 ^ 32 ->
  (forall j, len (allocate_content calls j) = size) ->
  exists ca enq rc,
    coreaudio_output_init_status C size count calls = Done (ca, enq, rc)
    /\ Forall (silent size) enq
    /\ source_buffer ca = repeat 0 (Z.to_nat C)
    /\ source_buffer_end ca = 0
    /\ (new_output_status calls <> 0 -> enq = [])
    /\ (new_output_status calls = 0 ->
        (forall j, (j < length enq)%nat -> allocate_status calls j = 0)
        /\ (length enq = count
            \/ ((length enq < count)%nat
                /\ allocate_status calls (length enq) <> 0))).
Proof.
  intros HC Hsize Hjunk.
  destruct (init_status_spec C size count calls HC Hsize Hjunk)
    as (ca & enq & rc & Hrun & Hsb & He & Hsil & Hall & Hcases).
  exists ca, enq, rc.
  split; [exact Hrun |]. split; [exact Hsil |]. split; [exact Hsb |].
  split; [exact He |]. split.
  - intros Hnew. destruct Hcases as [H | [H | [H | H]]]; tauto.
  - intros Hnew. split; [exact Hall |].
    destruct Hcases as [H | [H | [H | H]]]; tauto.
Qed.

(** The sizes of the source, the third of three allocations failing. *)
Lemma X6_init_prefills_silence_witness :
  exists ca enq rc,
    coreaudio_output_init_status 35280 AQ_BUF_SIZE 3
      {| new_output_status := 0;
         allocate_status := fun j => if Nat.eqb j 2 then 1 else 0;
         allocate_content := fun _ => repeat 85 (Z.to_nat AQ_BUF_SIZE);
         start_status := 0 |}
    = Done (ca, enq, rc)
    /\ Forall (silent AQ_BUF_SIZE) enq
    /\ source_buffer ca = repeat 0 (Z.to_nat 35280)
    /\ source_buffer_end ca = 0
    /\ (0 <> 0 -> enq = [])
    /\ (0 = 0 ->
        (forall j, (j < length enq)%nat ->
           (if Nat.eqb j 2 then 1 else 0) = 0)
        /\ (length enq = 3%nat
            \/ ((length enq < 3)%nat
                /\ (if Nat.eqb (length enq) 2 then 1 else 0) <> 0))).
Proof.
  apply (X6_init_prefills_silence 35280 AQ_BUF_SIZE 3
           {| new_output_status := 0;
              allocate_status := fun j => if Nat.eqb j 2 then 1 else 0;
              allocate_content := fun _ => repeat 85 (Z.to_nat AQ_BUF_SIZE);
              start_status := 0 |}).
  - lia.
  - unfold AQ_BUF_SIZE. lia.
  - intros j. vm_compute. reflexivity.
Defined.

(** ** X7 *)

(** X7: after a successful initialisation whose [count] blocks of [size]
    bytes are together shorter than the ring, the read cursor stands at
    [count * size] and the write cursor at 0: the ring holds the
    [C - count * size] zero bytes up to its end as a queue. As long as the
    calls that follow never put more than [C] bytes in that queue, those
    zeros counted, and no callback runs on the empty queue, they play what an
    unbounded queue that starts with those zeros gives: the zeros come out
    ahead of the bytes sent. *)
Theorem X7_init_leaves_silence_queued (C size : Z) (count : nat)
  (calls : audio_queue_calls) :
  0 < C < 2 ^ 32 -> 0 <= size < 2 ^ 32 ->
  (forall j, len (allocate_content calls j) = size) ->
  new_output_status calls = 0 ->
  (forall j, (j < count)%nat -> allocate_status calls j = 0) ->
  start_status calls = 0 ->
  Z.of_nat count * size < C ->
  exists ca enq,
    coreaudio_output_init_status C size count calls = Done (ca, enq, 0)
    /\ source_buffer_start ca = Z.of_nat count * size
    /\ source_buffer_end ca = 0
    /\ holds C ca (repeat 0 (Z.to_nat (C - Z.of_nat count * size)))
    /\ (forall ops : list op,
          fits C (repeat 0 (Z.to_nat (C - Z.of_nat count * size))) ops ->
          exists ca',
            run C ca ops
            = Done (ca',
                    fifo (repeat 0 (Z.to_nat (C - Z.of_nat count * size)))
                         ops)).
Proof.
  intros HC Hsize Hjunk Hnew Halloc Hstart Hroom.
  unfold coreaudio_output_init_status. cbv zeta.
  rewrite Hnew, Hstart. cbn [Z.eqb negb].
  assert (Hz : source_buffer (ca_data_zero C) = repeat 0 (Z.to_nat C))
    by reflexivity.
  destruct (init_buffers_spec C size calls HC Hsize Hjunk count O
              (ca_data_zero C) [] Hz)
    as (ca & enq & ok & Hrun & Hsb & Hst & He & _ & _ & Hend & Hcur);
    [cbn; lia | reflexivity |].
  destruct ok.
  - cbn [app] in Hrun. rewrite Hrun. cbn [bind negb].
    specialize (Hcur eq_refl). cbn [ca_data_zero source_buffer_start] in Hcur.
    rewrite Z.add_0_l in Hcur. specialize (Hcur Hroom).
    exists ca, enq. split; [reflexivity |]. split; [exact Hcur |].
    split; [exact He |].
    assert (Hn : 0 <= Z.of_nat count * size) by nia.
    assert (Hh : holds C ca
                   (repeat 0 (Z.to_nat (C - Z.of_nat count * size))));
      [| split; [exact Hh |]; intros ops Hfits;
         destruct (run_fifo C ops ca _ Hh Hfits) as (ca' & Hops & _);
         exists ca'; exact Hops].
    unfold holds. rewrite len_repeat by lia.
    replace (C - Z.of_nat count * size =? 0) with false
      by (symmetry; apply Z.eqb_neq; lia).
    split; [| split; [lia | split]].
    + unfold ring_inv, len. rewrite Hsb, repeat_length, He. lia.
    + unfold readable. rewrite He, Hcur.
      replace (Z.of_nat count * size <? 0) with false
        by (symmetry; apply Z.ltb_ge; lia).
      lia.
    + rewrite Hsb. apply cyc_read_zero.
  - exfalso. destruct Hend as (Hlt & Hbad). apply Hbad, Halloc.
    cbn [Nat.add]. exact Hlt.
Qed.

(** The sizes of the source: two blocks of 8820 bytes, a ring of 35280. *)
Lemma X7_init_leaves_silence_queued_witness :
  exists ca enq,
    coreaudio_output_init_status 35280 AQ_BUF_SIZE AQ_BUF_COUNT
      {| new_output_status := 0;
         allocate_status := fun _ => 0;
         allocate_content := fun _ => repeat 85 (Z.to_nat AQ_BUF_SIZE);
         start_status := 0 |}
    = Done (ca, enq, 0)
    /\ source_buffer_start ca = 17640
    /\ source_buffer_end ca = 0
    /\ holds 35280 ca (repeat 0 (Z.to_nat 17640)).
Proof.
  destruct (X7_init_leaves_silence_queued 35280 AQ_BUF_SIZE AQ_BUF_COUNT
              {| new_output_status := 0;
                 allocate_status := fun _ => 0;
                 allocate_content := fun _ => repeat 85 (Z.to_nat AQ_BUF_SIZE);
                 start_status := 0 |})
    as (ca & enq & Hrun & Hst & He & Hh & _).
  - lia.
  - unfold AQ_BUF_SIZE. lia.
  - intros j. vm_compute. reflexivity.
  - reflexivity.
  - intros j Hj. reflexivity.
  - reflexivity.
  - vm_compute. reflexivity.
  - exists ca, enq. split; [exact Hrun |]. split; [exact Hst |].
    split; [exact He | exact Hh].
Defined.

(** ** X8 *)

(** X8: when the ring holds a queue of bytes, the byte count the
    diagnostics print is the length of that queue, except for the full ring
    with equal cursors, where they print 0. *)
Theorem X8_diagnostics_count (C : Z) (ca : coreaudio_output_data)
  (q : list Z) :
  holds C ca q -> 2 * C < 2 ^ 32 ->
  data_in_buffer C ca = len q
  \/ (len q = C
      /\ source_buffer_start ca = source_buffer_end ca
      /\ data_in_buffer C ca = 0).
Proof.
  intros (Hinv & Hq & Hcur & _) H2. pose proof Hinv as (HC & _ & Hst & He).
  destruct (Z.eq_dec (source_buffer_start ca) (source_buffer_end ca))
    as [Heq | Hne].
  - assert (Hd : data_in_buffer C ca = 0).
    { unfold data_in_buffer, usub. cbv zeta. rewrite Heq.
      replace (C + source_buffer_end ca - source_buffer_end ca) with C by lia.
      rewrite (uint_small C) by lia. rewrite Z.geb_leb, Z.leb_refl.
      rewrite Z.sub_diag. reflexivity. }
    destruct (Z.eqb_spec (len q) 0) as [Hz | Hnz].
    + left. lia.
    + right. split; [| split; assumption].
      rewrite <- Hcur. unfold readable. rewrite Heq, Z.ltb_irrefl. lia.
  - left. rewrite data_in_buffer_readable by assumption.
    destruct (Z.eqb_spec (len q) 0); [contradiction | exact Hcur].
Qed.

(** A ring of 16 bytes holding the three bytes 15, 16, 1 across its end. *)
Lemma X8_diagnostics_count_witness :
  data_in_buffer 16
    {| source_buffer := bytes_1_16;
       source_buffer_start := 14;
       source_buffer_end := 1 |} = 3
  \/ (3 = 16 /\ 14 = 1
      /\ data_in_buffer 16
           {| source_buffer := bytes_1_16;
              source_buffer_start := 14;
              source_buffer_end := 1 |} = 0).
Proof.
  apply (X8_diagnostics_count 16
           {| source_buffer := bytes_1_16;
              source_buffer_start := 14;
              source_buffer_end := 1 |} [15; 16; 1]).
  - repeat split; vm_compute; solve [reflexivity | intro H; discriminate H].
  - lia.
Defined.

(** ** X9 *)

Lemma send_loop_oversize (C : Z) (data : receiver_data_t) :
  len (audio data) < audio_size data < 2 ^ 32 ->
  forall (fuel : nat) (ca : coreaudio_output_data) (copied : Z)
         (segs : list Z),
  ring_inv C ca ->
  0 <= copied <= len (audio data) ->
  len (audio data) - copied < Z.of_nat fuel ->
  send_loop C fuel ca data copied segs = Fault.
Proof.
  intros Hsize.
  induction fuel as [| fuel IH]; intros ca copied segs Hinv Hc Hfuel; [lia |].
  pose proof Hinv as (HC & Hs & Hst & He).
  pose proof (wrapped_range C _ (proj1 HC) He) as Hw.
  destruct ca as [s st en].
  cbn [source_buffer source_buffer_start source_buffer_end] in *.
  cbn [send_loop source_buffer source_buffer_start source_buffer_end].
  cbv beta zeta. fold (wrapped C en).
  set (e1 := wrapped C en) in *.
  set (n := audio_size data) in *.
  unfold usub, uadd. rewrite Z.gtb_ltb.
  rewrite !(uint_small (n - copied)) by lia.
  rewrite (uint_small (C - e1)) by lia.
  replace (0 <? n - copied) with true by (symmetry; apply Z.ltb_lt; lia).
  set (c := if n - copied <? C - e1 then n - copied else C - e1).
  assert (Hcr : 0 < c <= C - e1).
  { subst c. destruct (Z.ltb_spec (n - copied) (C - e1)); lia. }
  destruct (Z.le_gt_cases (copied + c) (len (audio data))) as [Hin | Hout].
  - rewrite memcpy_inbounds by lia. cbn [bind].
    rewrite (uint_small (e1 + c)), (uint_small (copied + c)) by lia.
    apply IH; [| lia | lia].
    unfold ring_inv, len.
    cbn [source_buffer source_buffer_start source_buffer_end].
    rewrite !length_app, length_firstn, length_skipn.
    pose proof (len_slice (audio data) copied c) as Hsl.
    unfold len in *. rewrite length_firstn, length_skipn in *. lia.
  - unfold memcpy.
    replace (copied + c <=? len (audio data)) with false
      by (symmetry; apply Z.leb_gt; lia).
    rewrite andb_false_r. reflexivity.
Qed.

(** X9: the send trusts [audio_size]: when it is larger than the region of
    bytes it comes with, the loop copies from beyond that region, for every
    state of the ring. *)
Theorem X9_send_trusts_audio_size (C : Z) (fuel : nat)
  (ca : coreaudio_output_data) (data : receiver_data_t) :
  ring_inv C ca ->
  len (audio data) < audio_size data < 2 ^ 32 ->
  (length (audio data) < fuel)%nat ->
  coreaudio_output_send C fuel ca data = Fault.
Proof.
  intros Hinv Hsize Hfuel. unfold coreaudio_output_send.
  rewrite (send_loop_oversize C data Hsize fuel ca 0 [] Hinv).
  - reflexivity.
  - pose proof (len_nonneg (audio data)). lia.
  - unfold len. lia.
Qed.

(** Six bytes announced as twenty. *)
Lemma X9_send_trusts_audio_size_witness :
  coreaudio_output_send 16 7 ring_drained
    {| audio := bytes_1_6; audio_size := 20 |} = Fault.
Proof.
  apply (X9_send_trusts_audio_size 16 7 ring_drained
           {| audio := bytes_1_6; audio_size := 20 |}).
  - repeat split; vm_compute; solve [reflexivity | intro H; discriminate H].
  - split; vm_compute; reflexivity.
  - cbn. lia.
Defined.

(** ** X10 *)

(** X10: the callback writes every byte of the block: what it hands back,
    and the ring it leaves, do not depend on what the block held before nor
    on its previous valid size. *)
Theorem X10_block_fully_overwritten (C : Z) (ca : coreaudio_output_data)
  (b1 b2 : AudioQueueBuffer) :
  ring_inv C ca ->
  0 <= mAudioDataBytesCapacity b1 < 2 ^ 32 ->
  mAudioDataBytesCapacity b2 = mAudioDataBytesCapacity b1 ->
  len (mAudioData b1) = mAudioDataBytesCapacity b1 ->
  len (mAudioData b2) = mAudioDataBytesCapacity b1 ->
  audio_queue_output_callback C ca b1 = audio_queue_output_callback C ca b2
  /\ exists ca' b', audio_queue_output_callback C ca b1 = Done (ca', b').
Proof.
  intros Hinv HB Hcap H1 H2.
  rewrite (callback_spec C ca b1) by assumption.
  rewrite (callback_spec C ca b2) by (rewrite ?Hcap; assumption).
  cbv zeta. rewrite Hcap. split; [reflexivity |].
  eexists; eexists; reflexivity.
Qed.

(** Two blocks of 4 bytes with different contents on the full ring. *)
Lemma X10_block_fully_overwritten_witness :
  audio_queue_output_callback 16 ring_full (allocate_buffer 4 junk4)
  = audio_queue_output_callback 16 ring_full
      {| mAudioDataBytesCapacity := 4;
         mAudioData := [9; 9; 9; 9];
         mAudioDataByteSize := 3 |}
  /\ exists ca' b',
       audio_queue_output_callback 16 ring_full (allocate_buffer 4 junk4)
       = Done (ca', b').
Proof.
  apply (X10_block_fully_overwritten 16 ring_full (allocate_buffer 4 junk4)
           {| mAudioDataBytesCapacity := 4;
              mAudioData := [9; 9; 9; 9];
              mAudioDataByteSize := 3 |}).
  - repeat split; vm_compute; solve [reflexivity | intro H; discriminate H].
  - cbn. lia.
  - reflexivity.
  - reflexivity.
  - reflexivity.
Defined.

(** ** X11 *)

(** X11: a send into a ring that holds a queue leaves it holding the queue
    with the chunk appended, less its oldest [C * ((T - 1) / C)] bytes, [T]
    being the length of the two together: nothing is dropped while [T] stays
    within [C], and beyond that whole rings of [C] bytes are dropped at once,
    so that a full ring that receives one byte more holds that byte alone. *)
Theorem X11_overflow_drops_whole_rings (C : Z) (ca : coreaudio_output_data)
  (q bytes : list Z) :
  holds C ca q -> len bytes < 2 ^ 32 ->
  let T := len q + len bytes in
  let dropped := if T =? 0 then 0 else C * ((T - 1) / C) in
  exists ca',
    ingest C ca bytes = Done ca'
    /\ holds C ca' (skipn (Z.to_nat dropped) (q ++ bytes)).
Proof.
  intros Hh H32 T dropped.
  pose proof (holds_write_pos C ca q Hh) as Hpos.
  pose proof Hh as (Hinv & Hq & _ & _).
  pose proof Hinv as (HC & Hs & Hst & He).
  pose proof (len_nonneg q) as Hq0. pose proof (len_nonneg bytes) as Hb0.
  destruct (Z.le_gt_cases T C) as [Hfit | Hover].
  - destruct (holds_ingest C ca q bytes Hh Hfit) as (ca' & Hrun & Hh').
    exists ca'. split; [exact Hrun |].
    replace dropped with 0; [exact Hh' |].
    subst dropped. destruct (Z.eqb_spec T 0); [reflexivity |].
    rewrite Z.div_small by lia. lia.
  - destruct (ingest_spec C ca bytes Hinv H32)
      as (ca' & Hrun & Hinv' & Hst' & (Hl & W & _) & Hend).
    exists ca'. split; [exact Hrun |].
    subst dropped. replace (T =? 0) with false
      by (symmetry; apply Z.eqb_neq; lia).
    pose proof (Z.div_mod (T - 1) C) as Hdm.
    pose proof (Z.mod_pos_bound (T - 1) C (proj1 HC)) as Hr.
    assert (Hk : 1 <= (T - 1) / C).
    { apply Z.div_le_lower_bound; lia. }
    set (k := (T - 1) / C) in *.
    replace (len bytes =? 0) with false in Hend
      by (symmetry; apply Z.eqb_neq; lia).
    assert (Hlen : len (skipn (Z.to_nat (C * k)) (q ++ bytes)) = T - C * k).
    { unfold len. rewrite length_skipn, length_app. unfold T, len in *. nia. }
    unfold holds. rewrite Hlen.
    replace (T - C * k =? 0) with false by (symmetry; apply Z.eqb_neq; lia).
    split; [exact Hinv' |]. split; [lia |]. split.
    + apply readable_after_write with (p := source_buffer_start ca);
        [lia | lia | lia | exact Hst' |].
      rewrite Hend, Hpos.
      replace ((source_buffer_start ca + len q) mod C + len bytes - 1)
        with ((source_buffer_start ca + len q) mod C + (len bytes - 1)) by lia.
      rewrite Zplus_mod_idemp_l.
      replace (source_buffer_start ca + len q + (len bytes - 1))
        with (source_buffer_start ca + (T - C * k) - 1 + k * C)
        by (unfold T; lia).
      rewrite Z_mod_plus_full. reflexivity.
    + apply nth_ext with (d := 0) (d' := 0).
      * rewrite cyc_read_length. unfold len in Hlen. lia.
      * intros i Hi. rewrite cyc_read_length in Hi.
        rewrite cyc_read_nth by exact Hi. rewrite Hst'.
        rewrite nth_skipn.
        rewrite app_nth2 by (unfold len in *; nia).
        set (j := C * k + Z.of_nat i - len q).
        replace (Z.to_nat (C * k) + i - length q)%nat with (Z.to_nat j)
          by (unfold j, len in *; nia).
        change (nth (Z.to_nat j) bytes 0) with (get bytes j).
        rewrite <- W by (unfold j, T in *; nia).
        rewrite Hpos, Zplus_mod_idemp_l.
        replace (source_buffer_start ca + len q + j)
          with (source_buffer_start ca + Z.of_nat i + k * C)
          by (unfold j; lia).
        rewrite Z_mod_plus_full. reflexivity.
Qed.

(** The full ring of 16 bytes receives one byte more and holds it alone. *)
Lemma X11_overflow_drops_whole_rings_witness :
  exists ca',
    ingest 16 ring_full [17] = Done ca'
    /\ holds 16 ca' [17].
Proof.
  apply (X11_overflow_drops_whole_rings 16 ring_full bytes_1_16 [17]).
  - repeat split; vm_compute; solve [reflexivity | intro H; discriminate H].
  - vm_compute. reflexivity.
Defined.
